(** * cmd/trace/pprof.go: pprof-like profiles computed from execution traces

    A shallow embedding of the profile computation of [cmd/trace/pprof.go]:
    the interval filters ([pprofMatchingGoroutines], [pprofMatchingSpans]),
    the overlap calculator ([pprofOverlappingDuration]), the four
    aggregators ([computePprofIO], [computePprofBlock], [computePprofSyscall],
    [computePprofSched]) and the profile builder ([buildProfile]).

    Conventions.
    - Go's [int64] and [uint64] are [Z] with the wrap-around of the machine
      operations written out ([Int64.add], [Int64.sub], [Uint64.add]).
    - Go maps are [gmap]s; a nil map and an empty map are told apart with
      [option] where the source tells them apart.
    - A [range] over a Go map visits the entries in an unspecified order: a
      loop over a map takes the visiting order as an explicit list and the
      theorems hold for every order.
    - [*profile.Location] and [*profile.Function] are never written after
      their creation, so a pointer is modelled by the value it points to. *)

From Stdlib Require Import ZArith Lia.
From stdpp Require Import base numbers option list sorting gmap strings.

Local Open Scope Z_scope.

(** ** Machine integers *)

Module Int64.
Definition modulus : Z := 2 ^ 64.
Definition min_int : Z := - 2 ^ 63.
Definition max_int : Z := 2 ^ 63 - 1.

(** The value of a mathematical integer once stored in an [int64]. *)
Definition wrap (z : Z) : Z := (z + 2 ^ 63) mod modulus - 2 ^ 63.

Definition add (x y : Z) : Z := wrap (x + y).
Definition sub (x y : Z) : Z := wrap (x - y).

Definition in_range (z : Z) : Prop := min_int <= z <= max_int.
End Int64.

Module Uint64.
Definition modulus : Z := 2 ^ 64.
Definition max_uint : Z := 2 ^ 64 - 1.
Definition wrap (z : Z) : Z := z mod modulus.
Definition add (x y : Z) : Z := wrap (x + y).
End Uint64.

(** A trace timestamp: nanoseconds since the start of the trace, held in
    an [int64]. The parser produces no negative timestamp. *)
Definition timestamp_ok (t : Z) : Prop := 0 <= t <= Int64.max_int.

(** ** Intervals *)

(** [type interval struct { begin, end int64 }] *)
Record interval : Type := Interval { begin : Z; end_ : Z }.

Global Instance interval_eq_dec : EqDecision interval.
Proof. solve_decision. Defined.

(** Two half-open intervals overlap when some instant lies in both. *)
Definition overlap (a b : interval) : Prop :=
  Z.max (begin a) (begin b) < Z.min (end_ a) (end_ b).

(** ** pprofMatchingSpans: selection of the outermost spans *)

Module Spans.

(** The [less] closure handed to [sort.Slice]. *)
Definition less (x y : interval) : bool :=
  if begin x =? begin y then end_ x <? end_ y else begin x <? begin y.

(** The order [sort.Slice] establishes: [y] is not [less] than [x]. *)
Definition le (x y : interval) : Prop := less y x = false.

Global Instance le_dec x y : Decision (le x y).
Proof. unfold le. apply _. Defined.

(** [sort.Slice(intervals, less)]. The library promises a permutation of
    the slice in which no element is [less] than one before it;
    [sort_Slice_unique] below shows that for this [less] there is exactly
    one such list, so the choice of algorithm is immaterial. *)
Definition sort_Slice (intervals : list interval) : list interval :=
  merge_sort le intervals.

(** The state of the scan: the slice (written in place), [lastTimestamp]
    and [n]. *)
Record scan : Type := Scan {
  arr : list interval;
  lastTimestamp : Z;
  n : nat
}.

(** One iteration of [for _, i := range intervals], at index [idx]. The
    element is read from the slice as it is at that iteration, after the
    writes of the earlier iterations. *)
Definition scan_step (st : scan) (idx : nat) : scan :=
  match arr st !! idx with
  | Some i =>
      if lastTimestamp st <=? begin i
      then {| arr := <[n st := i]> (arr st);
              lastTimestamp := end_ i;
              n := S (n st) |}
      else st
  | None => st
  end.

Definition scan_loop (intervals : list interval) : scan :=
  foldl scan_step
        {| arr := intervals; lastTimestamp := 0; n := 0 |}
        (seq 0 (length intervals)).

(** The scan followed by [intervals[:n]]. *)
Definition selectOutermost (intervals : list interval) : list interval :=
  let st := scan_loop intervals in take (n st) (arr st).

(** The body of [for g, intervals := range gToIntervals] for one
    goroutine. *)
Definition outermostSpans (intervals : list interval) : list interval :=
  selectOutermost (sort_Slice intervals).

(** The second loop of [pprofMatchingSpans]: every entry of the map is
    replaced by its outermost spans. *)
Definition selectAll (gToIntervals : gmap Z (list interval))
  : gmap Z (list interval) :=
  outermostSpans <$> gToIntervals.

(** The scan without the slice: what is kept from [l] when the last kept
    interval ended at [last]. *)
Fixpoint keep_from (last : Z) (l : list interval) : list interval :=
  match l with
  | [] => []
  | i :: l' =>
      if last <=? begin i then i :: keep_from (end_ i) l'
      else keep_from last l'
  end.

(** [lastTimestamp] as a function of what has been kept so far. *)
Definition lastEnd (kept : list interval) : Z :=
  match last kept with
  | Some i => end_ i
  | None => 0
  end.

End Spans.

(** ** The trace data read by this file ([internal/trace]) *)

Module trace.

(** Modelled from the spec: the kinds of events. [trace.Event.Type]
    ranges over a fixed enumeration declared in [internal/trace], which is
    not part of this file; the constructors are the kinds this file names,
    and [EvOther] stands for every other kind. *)
Inductive EventType : Type :=
  | EvGoCreate | EvGoUnblock
  | EvGoBlockSend | EvGoBlockRecv | EvGoBlockSelect
  | EvGoBlockSync | EvGoBlockCond | EvGoBlockNet
  | EvGoSysCall | EvGoBlockGC
  | EvOther.

Global Instance EventType_eq_dec : EqDecision EventType.
Proof. solve_decision. Defined.

(** [trace.Frame] *)
Module Frame.
Record t : Type := Make {
  PC : Z;          (* uint64 *)
  Fn : string;
  File : string;
  Line : Z         (* int *)
}.
Global Instance eq_dec : EqDecision t.
Proof. solve_decision. Defined.
End Frame.

(** [trace.Event], the fields this file reads. [Link] is the linked
    event, of which only the timestamp [Link.Ts] is read: [Some ts] is a
    linked event with that timestamp, [None] is a nil [Link]. *)
Module Event.
Record t : Type := Make {
  G : Z;                 (* uint64 *)
  Type_ : EventType;
  Ts : Z;                (* int64, nanoseconds *)
  Link : option Z;
  StkID : Z;             (* uint64 *)
  Stk : list Frame.t
}.
End Event.

(** [trace.GDesc], the fields this file reads. [EndTime] is 0 for a
    goroutine whose end is not in the trace. *)
Module GDesc.
Record t : Type := Make {
  ID : Z;                (* uint64 *)
  PC : Z;                (* uint64 *)
  StartTime : Z;         (* int64 *)
  EndTime : Z            (* int64 *)
}.
End GDesc.

End trace.

(** ** strconv.ParseUint *)

Module strconv.

Definition digit (c : Ascii.ascii) : option Z :=
  let v := Z.of_nat (Ascii.nat_of_ascii c) in
  if (48 <=? v) && (v <=? 57) then Some (v - 48) else None.

Fixpoint digits (acc : Z) (s : string) : option Z :=
  match s with
  | EmptyString => Some acc
  | String c s' =>
      match digit c with
      | Some d => digits (acc * 10 + d) s'
      | None => None
      end
  end.

(** Modelled from the spec: [strconv.ParseUint(s, 10, 64)], which is not
    part of this file. The identifier parses when it is a non-empty string
    of decimal digits whose value fits an unsigned 64-bit integer; [None]
    is a non-nil error. *)
Definition ParseUint (s : string) : option Z :=
  match s with
  | EmptyString => None
  | _ =>
      match digits 0 s with
      | Some v => if v <=? Uint64.max_uint then Some v else None
      | None => None
      end
  end.

End strconv.

(** ** pprofMatchingGoroutines *)

(** What the two interval filters return: [None] is the nil map ("no
    filtering"), [Some m] a non-nil map. *)
Abbreviation intervalFilter := (option (gmap Z (list interval))).

Section MatchingGoroutines.

(** The goroutine index [gs] as [analyzeGoroutines(events)] leaves it, in
    the order the loop visits it, and the value of [lastTimestamp()].
    Both are computed outside this file. *)
Variable gs : list trace.GDesc.t.
Variable lastTimestamp : Z.

(** [len(res)] of a possibly nil map. *)
Definition len_map (res : intervalFilter) : nat :=
  match res with
  | None => 0%nat
  | Some m => size m
  end.

(** The body of [for _, g := range gs]. *)
Definition matching_step (pc : Z) (res : intervalFilter) (g : trace.GDesc.t)
  : intervalFilter :=
  if decide (trace.GDesc.PC g ≠ pc) then res
  else
    let res :=
      match res with
      | None => Some ∅
      | Some m => Some m
      end in
    let endTime :=
      if trace.GDesc.EndTime g =? 0 then lastTimestamp
      else trace.GDesc.EndTime g in
    (λ m, <[trace.GDesc.ID g :=
              [ {| begin := trace.GDesc.StartTime g; end_ := endTime |} ] ]> m)
      <$> res.

(** The pair [(map, error)] is a sum: [inl msg] is a non-nil error (with a
    nil map), [inr res] is a nil error. *)
Definition pprofMatchingGoroutines (id : string) : string + intervalFilter :=
  if decide (id = EmptyString) then inr None
  else
    match strconv.ParseUint id with
    | None => inl ("invalid goroutine type: " +:+ id)
    | Some pc =>
        let res := foldl (matching_step pc) None gs in
        if decide (len_map res = 0%nat ∧ id ≠ EmptyString)
        then inl ("failed to find matching goroutines for id: " +:+ id)
        else inr res
    end.

End MatchingGoroutines.

(** ** overlappingDuration ([cmd/trace/annotations.go]) *)

Module annotations.

(** Modelled from the spec: [overlappingDuration(start1, end1, start2,
    end2)], a helper of this command that is declared in another file.
    It is the standard interval-intersection length
    [max(0, min(end1, end2) - max(start1, start2))], returned as a
    [time.Duration] (an [int64]). *)
Definition overlappingDuration (start1 end1 start2 end2 : Z) : Z :=
  Z.max 0 (Int64.sub (Z.min end1 end2) (Z.max start1 start2)).

End annotations.

(** ** pprofOverlappingDuration *)

(** [time.Nanosecond] *)
Definition Nanosecond : Z := 1.

Section OverlappingDuration.

(** The helper [overlappingDuration] is taken as it comes: what is proved
    of [pprofOverlappingDuration] for every helper holds of the real one. *)
Variable overlappingDuration : Z → Z → Z → Z → Z.

(** One iteration of [for _, i := range intervals]. [ev.Link.Ts] panics
    on a nil [Link]: [None]. *)
Definition overlapping_step (ev : trace.Event.t) (acc : option Z) (i : interval)
  : option Z :=
  overlapping ← acc;
  link_ts ← trace.Event.Link ev;
  let o := overlappingDuration (begin i) (end_ i) (trace.Event.Ts ev) link_ts in
  if 0 <? o then Some (Int64.add overlapping o) else Some overlapping.

(** [None] is the panic of [ev.Link.Ts] on a nil [Link]. *)
Definition pprofOverlappingDuration
    (gToIntervals : intervalFilter) (ev : trace.Event.t) : option Z :=
  match gToIntervals with
  | None =>
      link_ts ← trace.Event.Link ev;
      Some (Int64.wrap (Int64.sub link_ts (trace.Event.Ts ev) * Nanosecond))
  | Some m =>
      let intervals := default [] (m !! trace.Event.G ev) in
      if decide (length intervals = 0%nat) then Some 0
      else foldl (overlapping_step ev) (Some 0) intervals
  end.

End OverlappingDuration.

(** ** The four aggregators *)

(** [type Record struct { stk []*trace.Frame; n uint64; time int64 }] *)
Module Record_.
Record t : Type := Make {
  stk : list trace.Frame.t;
  n : Z;
  time : Z
}.
(** The zero value, which [prof[ev.StkID]] yields for an absent key. *)
Definition zero : t := {| stk := []; n := 0; time := 0 |}.
End Record_.

Section Aggregators.

Variable overlappingDuration : Z → Z → Z → Z → Z.

(** The lines the four loops share, from the call of
    [pprofOverlappingDuration] to [prof[ev.StkID] = rec]. *)
Definition accumulate (gToIntervals : intervalFilter)
    (prof : gmap Z Record_.t) (ev : trace.Event.t) : option (gmap Z Record_.t) :=
  overlapping ← pprofOverlappingDuration overlappingDuration gToIntervals ev;
  if 0 <? overlapping then
    let rec := default Record_.zero (prof !! trace.Event.StkID ev) in
    let rec := {| Record_.stk := trace.Event.Stk ev;
                  Record_.n := Uint64.add (Record_.n rec) 1;
                  Record_.time := Int64.add (Record_.time rec) overlapping |} in
    Some (<[trace.Event.StkID ev := rec]> prof)
  else Some prof.

(** [ev.Link == nil || ev.StkID == 0 || len(ev.Stk) == 0] *)
Definition unusable (ev : trace.Event.t) : bool :=
  bool_decide (trace.Event.Link ev = None)
  || (trace.Event.StkID ev =? 0)
  || bool_decide (length (trace.Event.Stk ev) = 0%nat).

Definition stepIO (gToIntervals : intervalFilter)
    (prof : gmap Z Record_.t) (ev : trace.Event.t) : option (gmap Z Record_.t) :=
  if bool_decide (trace.Event.Type_ ev ≠ trace.EvGoBlockNet) || unusable ev
  then Some prof
  else accumulate gToIntervals prof ev.

Definition stepBlock (gToIntervals : intervalFilter)
    (prof : gmap Z Record_.t) (ev : trace.Event.t) : option (gmap Z Record_.t) :=
  match trace.Event.Type_ ev with
  | trace.EvGoBlockSend | trace.EvGoBlockRecv | trace.EvGoBlockSelect
  | trace.EvGoBlockSync | trace.EvGoBlockCond | trace.EvGoBlockGC =>
      if unusable ev then Some prof
      else accumulate gToIntervals prof ev
  | _ => Some prof
  end.

Definition stepSyscall (gToIntervals : intervalFilter)
    (prof : gmap Z Record_.t) (ev : trace.Event.t) : option (gmap Z Record_.t) :=
  if bool_decide (trace.Event.Type_ ev ≠ trace.EvGoSysCall) || unusable ev
  then Some prof
  else accumulate gToIntervals prof ev.

Definition stepSched (gToIntervals : intervalFilter)
    (prof : gmap Z Record_.t) (ev : trace.Event.t) : option (gmap Z Record_.t) :=
  if (bool_decide (trace.Event.Type_ ev ≠ trace.EvGoUnblock)
      && bool_decide (trace.Event.Type_ ev ≠ trace.EvGoCreate))
     || unusable ev
  then Some prof
  else accumulate gToIntervals prof ev.

(** [for _, ev := range events] from [prof := make(map[uint64]Record)]. *)
Definition run_loop
    (step : gmap Z Record_.t → trace.Event.t → option (gmap Z Record_.t))
    (events : list trace.Event.t) : option (gmap Z Record_.t) :=
  foldl (λ acc ev, prof ← acc; step prof ev) (Some ∅) events.

(** The map [prof] each function hands to [buildProfile]. *)
Definition computePprofIO (gToIntervals : intervalFilter) events :=
  run_loop (stepIO gToIntervals) events.
Definition computePprofBlock (gToIntervals : intervalFilter) events :=
  run_loop (stepBlock gToIntervals) events.
Definition computePprofSyscall (gToIntervals : intervalFilter) events :=
  run_loop (stepSyscall gToIntervals) events.
Definition computePprofSched (gToIntervals : intervalFilter) events :=
  run_loop (stepSched gToIntervals) events.

End Aggregators.

(** ** The profile ([github.com/google/pprof/profile]) *)

Module profile.

Module ValueType.
Record t : Type := Make { Type_ : string; Unit : string }.
End ValueType.

Module Function.
Record t : Type := Make {
  ID : Z;
  Name : string;
  SystemName : string;
  Filename : string
}.
Global Instance eq_dec : EqDecision t.
Proof. solve_decision. Defined.
End Function.

Module Line.
Record t : Type := Make { Function : Function.t; Line : Z }.
Global Instance eq_dec : EqDecision t.
Proof. solve_decision. Defined.
End Line.

Module Location.
Record t : Type := Make {
  ID : Z;
  Address : Z;
  Line : list Line.t
}.
Global Instance eq_dec : EqDecision t.
Proof. solve_decision. Defined.
End Location.

Module Sample.
Record t : Type := Make {
  Value : list Z;
  Location : list Location.t
}.
End Sample.

Module Profile.
Record t : Type := Make {
  PeriodType : ValueType.t;
  Period : Z;
  SampleType : list ValueType.t;
  Function : list Function.t;
  Location : list Location.t;
  Sample : list Sample.t
}.
End Profile.

End profile.

(** ** buildProfile *)

Module build.

Import profile.

(** What [buildProfile] holds while it runs: the profile [p] and the two
    interning maps. *)
Record state : Type := State {
  p : Profile.t;
  locs : gmap Z Location.t;
  funcs : gmap string Function.t
}.

Definition with_Function (p : Profile.t) (fs : list Function.t) : Profile.t :=
  {| Profile.PeriodType := Profile.PeriodType p;
     Profile.Period := Profile.Period p;
     Profile.SampleType := Profile.SampleType p;
     Profile.Function := fs;
     Profile.Location := Profile.Location p;
     Profile.Sample := Profile.Sample p |}.

Definition with_Location (p : Profile.t) (ls : list Location.t) : Profile.t :=
  {| Profile.PeriodType := Profile.PeriodType p;
     Profile.Period := Profile.Period p;
     Profile.SampleType := Profile.SampleType p;
     Profile.Function := Profile.Function p;
     Profile.Location := ls;
     Profile.Sample := Profile.Sample p |}.

Definition with_Sample (p : Profile.t) (ss : list Sample.t) : Profile.t :=
  {| Profile.PeriodType := Profile.PeriodType p;
     Profile.Period := Profile.Period p;
     Profile.SampleType := Profile.SampleType p;
     Profile.Function := Profile.Function p;
     Profile.Location := Profile.Location p;
     Profile.Sample := ss |}.

(** The key of the map [funcs]: [frame.File+frame.Fn]. *)
Definition funcKey (frame : trace.Frame.t) : string :=
  trace.Frame.File frame +:+ trace.Frame.Fn frame.

(** [fn := funcs[frame.File+frame.Fn]; if fn == nil { ... }]: the function
    of the frame and the state after the lookup. *)
Definition internFunction (st : state) (frame : trace.Frame.t)
  : Function.t * state :=
  match funcs st !! funcKey frame with
  | Some fn => (fn, st)
  | None =>
      let fn := {| Function.ID := Z.of_nat (length (Profile.Function (p st)) + 1);
                   Function.Name := trace.Frame.Fn frame;
                   Function.SystemName := trace.Frame.Fn frame;
                   Function.Filename := trace.Frame.File frame |} in
      (fn, {| p := with_Function (p st) (Profile.Function (p st) ++ [fn]);
              locs := locs st;
              funcs := <[funcKey frame := fn]> (funcs st) |})
  end.

(** The body of [for _, frame := range rec.stk], up to the append to
    [sloc]: the location of the frame and the state after the lookup. *)
Definition internLocation (st : state) (frame : trace.Frame.t)
  : Location.t * state :=
  match locs st !! trace.Frame.PC frame with
  | Some loc => (loc, st)
  | None =>
      let '(fn, st) := internFunction st frame in
      let loc := {| Location.ID := Z.of_nat (length (Profile.Location (p st)) + 1);
                    Location.Address := trace.Frame.PC frame;
                    Location.Line :=
                      [ {| Line.Function := fn;
                           Line.Line := trace.Frame.Line frame |} ] |} in
      (loc, {| p := with_Location (p st) (Profile.Location (p st) ++ [loc]);
               locs := <[trace.Frame.PC frame := loc]> (locs st);
               funcs := funcs st |})
  end.

(** [for _, frame := range rec.stk { ...; sloc = append(sloc, loc) }] *)
Definition frame_step (acc : list Location.t * state) (frame : trace.Frame.t)
  : list Location.t * state :=
  let '(loc, st) := internLocation acc.2 frame in (acc.1 ++ [loc], st).

Definition internStack (st : state) (stk : list trace.Frame.t)
  : list Location.t * state :=
  foldl frame_step ([], st) stk.

(** The body of [for _, rec := range prof]. *)
Definition record_step (st : state) (rec : Record_.t) : state :=
  let '(sloc, st) := internStack st (Record_.stk rec) in
  let sample := {| Sample.Value := [Int64.wrap (Record_.n rec); Record_.time rec];
                   Sample.Location := sloc |} in
  {| p := with_Sample (p st) (Profile.Sample (p st) ++ [sample]);
     locs := locs st;
     funcs := funcs st |}.

Definition init : state :=
  {| p := {| Profile.PeriodType := {| ValueType.Type_ := "trace";
                                      ValueType.Unit := "count" |};
             Profile.Period := 1;
             Profile.SampleType :=
               [ {| ValueType.Type_ := "contentions"; ValueType.Unit := "count" |};
                 {| ValueType.Type_ := "delay"; ValueType.Unit := "nanoseconds" |} ];
             Profile.Function := [];
             Profile.Location := [];
             Profile.Sample := [] |};
     locs := ∅;
     funcs := ∅ |}.

(** The loop of [buildProfile] when [range prof] visits the records in
    the order [recs]. *)
Definition run (recs : list Record_.t) : state := foldl record_step init recs.

Definition buildProfileIn (recs : list Record_.t) : Profile.t := p (run recs).


End build.

(** ** Vocabulary of the statements *)

(** The sum of a list of integers. *)
Definition Zsum (l : list Z) : Z := foldr Z.add 0 l.

(** The length of the intersection of the interval [i] with the window
    from [s] to [e], in unbounded integers. *)
Definition intersection (s e : Z) (i : interval) : Z :=
  Z.max 0 (Z.min (end_ i) e - Z.max (begin i) s).

(** No two intervals of the list overlap. *)
Fixpoint pairwise_disjoint (l : list interval) : Prop :=
  match l with
  | [] => True
  | a :: l' => Forall (λ b, ¬ overlap a b) l' ∧ pairwise_disjoint l'
  end.

(** An interval list as the filters build them: valid timestamps,
    [begin <= end], pairwise disjoint. *)
Definition intervals_ok (l : list interval) : Prop :=
  Forall (λ i, timestamp_ok (begin i) ∧ timestamp_ok (end_ i) ∧ begin i <= end_ i) l
  ∧ pairwise_disjoint l.

Definition filter_ok (gToIntervals : intervalFilter) : Prop :=
  ∀ m g l, gToIntervals = Some m → m !! g = Some l → intervals_ok l.

(** The strictly positive overlaps of an event with a list of intervals,
    for a helper [overlappingDuration]: what the loop of
    [pprofOverlappingDuration] adds up. *)
Definition positive_overlaps (overlappingDuration : Z → Z → Z → Z → Z)
    (ev : trace.Event.t) (link_ts : Z) (intervals : list interval) : list Z :=
  (λ i, Z.max 0 (overlappingDuration (begin i) (end_ i) (trace.Event.Ts ev) link_ts))
    <$> intervals.

(** ** Sample inputs *)

Module Sample.

Definition frame : trace.Frame.t :=
  {| trace.Frame.PC := 4198400; trace.Frame.Fn := "net.(*conn).Read";
     trace.Frame.File := "net/net.go"; trace.Frame.Line := 176 |}.

(** An event of goroutine 1 from 10 to 50. *)
Definition event : trace.Event.t :=
  {| trace.Event.G := 1; trace.Event.Type_ := trace.EvGoBlockNet;
     trace.Event.Ts := 10; trace.Event.Link := Some 50;
     trace.Event.StkID := 7; trace.Event.Stk := [frame] |}.

(** Goroutine 1 is in scope from 0 to 20 and from 30 to 60. *)
Definition filter : intervalFilter :=
  Some {[ 1 := [ {| begin := 0; end_ := 20 |}; {| begin := 30; end_ := 60 |} ] ]}.

(** Raw intervals of one goroutine, nested and overlapping. *)
Definition raw : list interval :=
  [ {| begin := 10; end_ := 20 |}; {| begin := 0; end_ := 15 |};
    {| begin := 12; end_ := 13 |}; {| begin := 20; end_ := 25 |};
    {| begin := 0; end_ := 5 |} ].




End Sample.

(** ** The four profile kinds *)

Inductive ProfileKind : Type := IO | Block | Syscall | Sched.

(** The event kinds of each profile kind. *)
Definition kind_events (k : ProfileKind) : list trace.EventType :=
  match k with
  | IO => [trace.EvGoBlockNet]
  | Block => [trace.EvGoBlockSend; trace.EvGoBlockRecv; trace.EvGoBlockSelect;
              trace.EvGoBlockSync; trace.EvGoBlockCond; trace.EvGoBlockGC]
  | Syscall => [trace.EvGoSysCall]
  | Sched => [trace.EvGoUnblock; trace.EvGoCreate]
  end.

Section Kinds.

Variable overlappingDuration : Z → Z → Z → Z → Z.

(** The loop body and the function of each profile kind. *)
Definition step_of (k : ProfileKind) :=
  match k with
  | IO => stepIO overlappingDuration
  | Block => stepBlock overlappingDuration
  | Syscall => stepSyscall overlappingDuration
  | Sched => stepSched overlappingDuration
  end.

Definition computePprof (k : ProfileKind) :=
  match k with
  | IO => computePprofIO overlappingDuration
  | Block => computePprofBlock overlappingDuration
  | Syscall => computePprofSyscall overlappingDuration
  | Sched => computePprofSched overlappingDuration
  end.

(** An event contributes to the profile of kind [k] under a filter: its
    kind is one of [kind_events k], it has a linked end event, a nonzero
    stack id, at least one frame, and a strictly positive overlap [o]. *)
Definition contributes (k : ProfileKind) (gToIntervals : intervalFilter)
    (ev : trace.Event.t) (o : Z) : Prop :=
  trace.Event.Type_ ev ∈ kind_events k
  ∧ is_Some (trace.Event.Link ev)
  ∧ trace.Event.StkID ev ≠ 0
  ∧ trace.Event.Stk ev ≠ []
  ∧ pprofOverlappingDuration overlappingDuration gToIntervals ev = Some o
  ∧ 0 < o.

(** The record of its stack id after a contribution of [o] nanoseconds. *)
Definition contribution (prof : gmap Z Record_.t) (ev : trace.Event.t) (o : Z)
  : Record_.t :=
  let rec := default Record_.zero (prof !! trace.Event.StkID ev) in
  {| Record_.stk := trace.Event.Stk ev;
     Record_.n := Uint64.add (Record_.n rec) 1;
     Record_.time := Int64.add (Record_.time rec) o |}.

(** The loop body as a total function: the map after the event. *)
Definition after (k : ProfileKind) (gToIntervals : intervalFilter)
    (prof : gmap Z Record_.t) (ev : trace.Event.t) : gmap Z Record_.t :=
  default prof (step_of k gToIntervals prof ev).

End Kinds.

(** Any two events of the list that share a stack id carry equal frame
    lists. *)
Definition stacks_agree (events : list trace.Event.t) : Prop :=
  ∀ e1 e2, e1 ∈ events → e2 ∈ events →
    trace.Event.StkID e1 = trace.Event.StkID e2 →
    trace.Event.Stk e1 = trace.Event.Stk e2.

(** ** Vocabulary of the statements on [buildProfile] *)

Module interning.

Import profile build.

(** The key under which a function of the table is registered. *)
Definition fkey (fn : Function.t) : string :=
  Function.Filename fn +:+ Function.Name fn.

(** The state after the frames [frames] have gone through the loop
    body, one after the other. *)
Definition intern_frames (st : state) (frames : list trace.Frame.t) : state :=
  foldl (λ st frame, (internLocation st frame).2) st frames.

(** The frames of the records, in the order [buildProfile] meets them. *)
Definition frames_of (recs : list Record_.t) : list trace.Frame.t :=
  concat (Record_.stk <$> recs).

(** The states [buildProfile] goes through, each with the frames it has
    met so far. *)
Inductive reachable : state → list trace.Frame.t → Prop :=
  | reach_init : reachable init []
  | reach_frame st frames frame :
      reachable st frames →
      reachable (internLocation st frame).2 (frames ++ [frame])
  | reach_sample st frames samples :
      reachable st frames →
      reachable {| p := with_Sample (p st) samples;
                   locs := locs st; funcs := funcs st |} frames.

(** [frame] is in [frames] and no frame before it has its address. *)
Definition first_at (frames : list trace.Frame.t) (frame : trace.Frame.t) : Prop :=
  ∃ pre post, frames = pre ++ frame :: post
              ∧ trace.Frame.PC frame ∉ trace.Frame.PC <$> pre.


(** The sample of a record: its two values, and for each frame of its
    stack, in order, a location of the table [locations] with the address
    of the frame. *)
Definition sample_of (locations : list Location.t)
    (rec : Record_.t) (s : Sample.t) : Prop :=
  Sample.Value s = [Int64.wrap (Record_.n rec); Record_.time rec]
  ∧ Forall2 (λ frame loc, loc ∈ locations
                          ∧ Location.Address loc = trace.Frame.PC frame)
            (Record_.stk rec) (Sample.Location s).


(** The tables of a state are consistent with the frames met so far. *)
Record consistent (st : state) (frames : list trace.Frame.t) : Prop := Consistent {
  locs_table : ∀ pc loc,
    locs st !! pc = Some loc ↔
    loc ∈ Profile.Location (p st) ∧ Location.Address loc = pc;
  locs_nodup : NoDup (Location.Address <$> Profile.Location (p st));
  locs_ids : ∀ i loc,
    Profile.Location (p st) !! i = Some loc → Location.ID loc = Z.of_nat i + 1;
  funcs_table : ∀ key fn,
    funcs st !! key = Some fn ↔
    fn ∈ Profile.Function (p st) ∧ fkey fn = key;
  funcs_nodup : NoDup (fkey <$> Profile.Function (p st));
  funcs_ids : ∀ i fn,
    Profile.Function (p st) !! i = Some fn → Function.ID fn = Z.of_nat i + 1;
  locs_cover : ∀ pc,
    pc ∈ Location.Address <$> Profile.Location (p st) ↔
    pc ∈ trace.Frame.PC <$> frames;
  locs_first : ∀ loc, loc ∈ Profile.Location (p st) →
    ∃ frame fn, first_at frames frame
      ∧ Location.Address loc = trace.Frame.PC frame
      ∧ Location.Line loc = [ {| Line.Function := fn;
                                 Line.Line := trace.Frame.Line frame |} ]
      ∧ funcs st !! funcKey frame = Some fn;
  funcs_first : ∀ fn, fn ∈ Profile.Function (p st) →
    ∃ frame, first_at frames frame
      ∧ Function.Name fn = trace.Frame.Fn frame
      ∧ Function.SystemName fn = trace.Frame.Fn frame
      ∧ Function.Filename fn = trace.Frame.File frame
}.

End interning.

(** ** Sample inputs for [buildProfile] and the aggregators *)

Module Sample2.

(** Two frames at one address with different functions and files. *)
Definition first : trace.Frame.t :=
  {| trace.Frame.PC := 4198400; trace.Frame.Fn := "main.f";
     trace.Frame.File := "a.go"; trace.Frame.Line := 10 |}.
Definition second : trace.Frame.t :=
  {| trace.Frame.PC := 4198400; trace.Frame.Fn := "main.g";
     trace.Frame.File := "b.go"; trace.Frame.Line := 20 |}.

Definition rec : Record_.t :=
  {| Record_.stk := [first; second]; Record_.n := 1; Record_.time := 50 |}.

Definition prof : gmap Z Record_.t := {[ 7 := rec ]}.

(** Two records whose stacks share the frame [Sample.frame]. *)
Definition caller : trace.Frame.t :=
  {| trace.Frame.PC := 4202496; trace.Frame.Fn := "main.main";
     trace.Frame.File := "main.go"; trace.Frame.Line := 12 |}.
Definition rec1 : Record_.t :=
  {| Record_.stk := [Sample.frame; caller]; Record_.n := 2; Record_.time := 70 |}.
Definition rec2 : Record_.t :=
  {| Record_.stk := [Sample.frame]; Record_.n := 1; Record_.time := 40 |}.


(** The event of the end-to-end example, for a frame [F]. *)
Definition event (F : trace.Frame.t) : trace.Event.t :=
  {| trace.Event.G := 1; trace.Event.Type_ := trace.EvGoBlockNet;
     trace.Event.Ts := 100; trace.Event.Link := Some 150;
     trace.Event.StkID := 7; trace.Event.Stk := [F] |}.

(** A second event, with another stack id. *)
Definition other : trace.Event.t :=
  {| trace.Event.G := 2; trace.Event.Type_ := trace.EvGoBlockNet;
     trace.Event.Ts := 20; trace.Event.Link := Some 45;
     trace.Event.StkID := 9; trace.Event.Stk := [first] |}.

End Sample2.

(** The interval of a goroutine: from its start to its end, or to the
    last timestamp of the trace when its end is not in the trace. *)
Definition goroutineInterval (lastTimestamp : Z) (g : trace.GDesc.t) : interval :=
  {| begin := trace.GDesc.StartTime g;
     end_ := if trace.GDesc.EndTime g =? 0 then lastTimestamp
             else trace.GDesc.EndTime g |}.

(** ** Sample goroutines *)

Module Sample3.

(** Goroutines 1 and 2 were created at 4198400; the end of goroutine 1
    is not in the trace. *)
Definition g1 : trace.GDesc.t :=
  {| trace.GDesc.ID := 1; trace.GDesc.PC := 4198400;
     trace.GDesc.StartTime := 5; trace.GDesc.EndTime := 0 |}.
Definition g2 : trace.GDesc.t :=
  {| trace.GDesc.ID := 2; trace.GDesc.PC := 4198400;
     trace.GDesc.StartTime := 10; trace.GDesc.EndTime := 90 |}.
Definition g3 : trace.GDesc.t :=
  {| trace.GDesc.ID := 3; trace.GDesc.PC := 4202496;
     trace.GDesc.StartTime := 0; trace.GDesc.EndTime := 100 |}.

Definition gs : list trace.GDesc.t := [g1; g2; g3].

Definition lastTimestamp : Z := 1000.

End Sample3.

(** ** pprofMatchingSpans: the whole function *)

Section MatchingSpans.

(** The spans and the keys of [res.spans] are declared in
    [annotations.go]; of a span [s] this file reads [s.G],
    [s.firstTimestamp()] and [s.lastTimestamp()], and it hands the span and
    its key to [filter.match]. *)
Context {K span : Type}.
Variable span_G : span → Z.
Variable span_first : span → Z.
Variable span_last : span → Z.

(** [interval{begin: s.firstTimestamp(), end: s.lastTimestamp()}] *)
Definition span_interval (s : span) : interval :=
  {| begin := span_first s; end_ := span_last s |}.

(** The body of [for _, s := range spans]. An absent key reads as the nil
    slice, to which [append] adds the interval. *)
Definition collect_step (match_ : K → span → bool) (id : K)
    (gToIntervals : gmap Z (list interval)) (s : span) : gmap Z (list interval) :=
  if match_ id s
  then <[span_G s := default [] (gToIntervals !! span_G s) ++ [span_interval s]]>
         gToIntervals
  else gToIntervals.

(** The first loop, over [res.spans] in the order [spans] in which
    [range] visits it. *)
Definition collect (match_ : K → span → bool) (spans : list (K * list span))
  : gmap Z (list interval) :=
  foldl (λ gToIntervals entry,
           foldl (collect_step match_ entry.1) gToIntervals entry.2)
        ∅ spans.

(** [res] is what [analyzeAnnotations()] returns: [inl err] an error,
    [inr spans] the spans by key. [filter] is [None] for a nil filter, else
    its [match] method. *)
Definition pprofMatchingSpans (res : string + list (K * list span))
    (filter : option (K → span → bool)) : string + intervalFilter :=
  match res with
  | inl err => inl err
  | inr spans =>
      match filter with
      | None => inr None
      | Some match_ => inr (Some (Spans.selectAll (collect match_ spans)))
      end
  end.

(** The matching spans of goroutine [g], in the order the first loop meets
    them. *)
Definition matching_spans (match_ : K → span → bool) (g : Z)
    (spans : list (K * list span)) : list span :=
  spans ≫= λ entry,
    filter (λ s, match_ entry.1 s = true ∧ span_G s = g) entry.2.

End MatchingSpans.

(** ** pprofByGoroutine and pprofBySpan *)

Section Handlers.

(** [compute(w, gToIntervals, events)] is one of the four functions
    followed by the write of the profile: [inl err] is its error, [inr r]
    what it wrote. [parseEvents()] returns a pair: the events and an error
    or nil. *)
Context {R K span : Type}.
Variable compute : intervalFilter → list trace.Event.t → string + R.

Definition pprofByGoroutine (gs : list trace.GDesc.t) (lastTimestamp : Z)
    (id : string) (parseEvents : list trace.Event.t * option string)
  : string + R :=
  match parseEvents.2 with
  | Some err => inl err
  | None =>
      match pprofMatchingGoroutines gs lastTimestamp id with
      | inl err => inl err
      | inr gToIntervals => compute gToIntervals parseEvents.1
      end
  end.

(** [newSpanFilter] is what [newSpanFilter(r)] returns. *)
Definition pprofBySpan (span_G span_first span_last : span → Z)
    (newSpanFilter : string + option (K → span → bool))
    (res : string + list (K * list span))
    (parseEvents : list trace.Event.t * option string)
  : string + R :=
  match newSpanFilter with
  | inl err => inl err
  | inr filter =>
      match pprofMatchingSpans span_G span_first span_last res filter with
      | inl err => inl err
      | inr gToIntervals => compute gToIntervals parseEvents.1
      end
  end.

End Handlers.

(** ** Vocabulary of the statements on the aggregators *)

Section Gain.

Variable overlappingDuration : Z → Z → Z → Z → Z.

(** The time an event adds to the profile of kind [k]: its overlap when
    it contributes, 0 when it does not. *)
Definition gain (k : ProfileKind) (gToIntervals : intervalFilter)
    (ev : trace.Event.t) : Z :=
  if bool_decide (trace.Event.Type_ ev ∈ kind_events k) && negb (unusable ev)
  then Z.max 0 (default 0 (pprofOverlappingDuration overlappingDuration gToIntervals ev))
  else 0.

(** The events of stack id [id] that contribute, in order. *)
Definition contributing (k : ProfileKind) (gToIntervals : intervalFilter)
    (id : Z) (events : list trace.Event.t) : list trace.Event.t :=
  filter (λ ev, trace.Event.StkID ev = id ∧ 0 < gain k gToIntervals ev) events.

(** The record of stack id [id] as a function of the events: the stack of
    the last contributing event, their number and the sum of their
    overlaps, as [uint64] and [int64]. *)
Definition summary (k : ProfileKind) (gToIntervals : intervalFilter)
    (id : Z) (events : list trace.Event.t) : option Record_.t :=
  let evs := contributing k gToIntervals id events in
  (λ e, {| Record_.stk := trace.Event.Stk e;
           Record_.n := Uint64.wrap (Z.of_nat (length evs));
           Record_.time := Int64.wrap (Zsum (gain k gToIntervals <$> evs)) |})
    <$> last evs.

End Gain.

(** ** Sample spans *)

Module Sample4.

(** A span as the triple of its goroutine, first and last timestamp. *)
Definition span : Type := Z * Z * Z.
Definition G (s : span) : Z := s.1.1.
Definition first (s : span) : Z := s.1.2.
Definition last (s : span) : Z := s.2.

(** Two kinds of spans, keyed 1 and 2; goroutine 7 has nested spans. *)
Definition spans : list (Z * list span) :=
  [ (1, [ (7, 0, 100); (7, 10, 20); (8, 5, 50) ]);
    (2, [ (7, 100, 130); (9, 0, 10) ]) ].

(** The filter that matches the spans of key 1. *)
Definition key1 (id : Z) (s : span) : bool := bool_decide (id = 1).

(** The filter that matches no span. *)
Definition nothing (id : Z) (s : span) : bool := false.

End Sample4.

(** * Properties *)

(** ** Machine integers *)

Lemma Int64_wrap_in_range z : Int64.in_range z → Int64.wrap z = z.
Proof.
  unfold Int64.in_range, Int64.wrap, Int64.min_int, Int64.max_int, Int64.modulus.
  intros H. rewrite Z.mod_small; lia.
Qed.

Lemma Int64_wrap_range z : Int64.in_range (Int64.wrap z).
Proof.
  unfold Int64.in_range, Int64.wrap, Int64.min_int, Int64.max_int, Int64.modulus.
  pose proof (Z.mod_pos_bound (z + 2 ^ 63) (2 ^ 64)). lia.
Qed.

Lemma Int64_wrap_wrap z : Int64.wrap (Int64.wrap z) = Int64.wrap z.
Proof. apply Int64_wrap_in_range, Int64_wrap_range. Qed.

(** Wrapping is a congruence for addition: an accumulation of wrapped sums
    is the wrapped sum. *)
Lemma Int64_wrap_add_l x y : Int64.wrap (Int64.wrap x + y) = Int64.wrap (x + y).
Proof.
  unfold Int64.wrap, Int64.modulus.
  replace ((x + 2 ^ 63) mod 2 ^ 64 - 2 ^ 63 + y + 2 ^ 63)
    with ((x + 2 ^ 63) mod 2 ^ 64 + y) by lia.
  rewrite Zplus_mod_idemp_l. f_equal. f_equal. lia.
Qed.

Lemma Int64_wrap_add_r x y : Int64.wrap (x + Int64.wrap y) = Int64.wrap (x + y).
Proof. rewrite (Z.add_comm x), Int64_wrap_add_l. f_equal. lia. Qed.

Lemma Int64_sub_in_range x y :
  timestamp_ok x → timestamp_ok y → Int64.sub x y = x - y.
Proof.
  unfold timestamp_ok, Int64.sub, Int64.max_int. intros Hx Hy.
  apply Int64_wrap_in_range. unfold Int64.in_range, Int64.min_int, Int64.max_int. lia.
Qed.

Lemma Uint64_wrap_add_l x y : Uint64.wrap (Uint64.wrap x + y) = Uint64.wrap (x + y).
Proof. unfold Uint64.wrap. apply Zplus_mod_idemp_l. Qed.

(** ** The order of [sort.Slice] *)

Lemma Spans_le_spec x y :
  Spans.le x y ↔ begin x < begin y ∨ (begin x = begin y ∧ end_ x <= end_ y).
Proof.
  unfold Spans.le, Spans.less.
  destruct (Z.eqb_spec (begin y) (begin x)) as [Heq|Hne].
  - rewrite Z.ltb_ge. lia.
  - rewrite Z.ltb_ge. lia.
Qed.

Global Instance Spans_le_total : Total Spans.le.
Proof. intros x y. rewrite !Spans_le_spec. lia. Qed.

Global Instance Spans_le_trans : Transitive Spans.le.
Proof. intros x y z. rewrite !Spans_le_spec. lia. Qed.

Global Instance Spans_le_antisymm : AntiSymm (=) Spans.le.
Proof.
  intros [bx ex] [b_y ey]. rewrite !Spans_le_spec. simpl.
  intros H1 H2. f_equal; lia.
Qed.

Lemma sort_Slice_perm intervals : Spans.sort_Slice intervals ≡ₚ intervals.
Proof. apply merge_sort_Permutation. Qed.

Lemma sort_Slice_sorted intervals : StronglySorted Spans.le (Spans.sort_Slice intervals).
Proof. apply StronglySorted_merge_sort; apply _. Qed.

(** Whatever algorithm [sort.Slice] runs, its result is [sort_Slice]: a
    permutation of the slice in which no element is [less] than its
    predecessor is unique. *)
Lemma sort_Slice_unique intervals sorted :
  sorted ≡ₚ intervals → Sorted Spans.le sorted → sorted = Spans.sort_Slice intervals.
Proof.
  intros Hp Hs. apply (Sorted_unique Spans.le); [done| |].
  - apply Sorted_merge_sort; apply _.
  - by rewrite Hp, sort_Slice_perm.
Qed.

(** ** The scan of [pprofMatchingSpans] *)

(** [lastTimestamp] after the scan of [l] started at [a]. *)
Lemma keep_from_app a l1 l2 :
  Spans.keep_from a (l1 ++ l2) =
  Spans.keep_from a l1 ++
  Spans.keep_from (from_option end_ a (last (Spans.keep_from a l1))) l2.
Proof.
  revert a. induction l1 as [|i l1 IH]; intros a; simpl; [done|].
  destruct (a <=? begin i) eqn:Hle.
  - rewrite IH, last_cons. simpl. f_equal. f_equal.
    by destruct (last (Spans.keep_from (end_ i) l1)).
  - apply IH.
Qed.

Lemma keep_from_snoc l x :
  Spans.keep_from 0 (l ++ [x]) =
  Spans.keep_from 0 l ++
  (if Spans.lastEnd (Spans.keep_from 0 l) <=? begin x then [x] else []).
Proof.
  by rewrite keep_from_app.
Qed.

Lemma keep_from_length a l : (length (Spans.keep_from a l) ≤ length l)%nat.
Proof.
  revert a. induction l as [|i l IH]; intros a; simpl; [lia|].
  case_match; simpl; [specialize (IH (end_ i))|specialize (IH a)]; lia.
Qed.

Lemma keep_from_sublist a l : Spans.keep_from a l `sublist_of` l.
Proof.
  revert a. induction l as [|i l IH]; intros a; simpl; [done|].
  case_match; [by apply sublist_skip|by apply sublist_cons].
Qed.

(** The state of the scan after the first [k] iterations. *)
Lemma scan_prefix l k :
  (k ≤ length l)%nat →
  let st := foldl Spans.scan_step
                  {| Spans.arr := l; Spans.lastTimestamp := 0; Spans.n := 0 |}
                  (seq 0 k) in
  take (Spans.n st) (Spans.arr st) = Spans.keep_from 0 (take k l)
  ∧ (Spans.n st ≤ k)%nat
  ∧ drop k (Spans.arr st) = drop k l
  ∧ length (Spans.arr st) = length l
  ∧ Spans.lastTimestamp st = Spans.lastEnd (Spans.keep_from 0 (take k l)).
Proof.
  induction k as [|k IH]; intros Hk.
  { simpl. by rewrite take_0. }
  rewrite seq_S, foldl_app. simpl.
  destruct IH as (Htake & Hn & Hdrop & Hlen & Hlast); [lia|].
  set (st := foldl Spans.scan_step _ (seq 0 k)) in *.
  destruct (lookup_lt_is_Some_2 l k) as [x Hx]; [lia|].
  assert (Harr : Spans.arr st !! k = Some x).
  { rewrite <-(Nat.add_0_r k), <-lookup_drop, Hdrop, lookup_drop, Nat.add_0_r. done. }
  assert (Hdrop' : drop (S k) (Spans.arr st) = drop (S k) l).
  { replace (S k) with (k + 1)%nat by lia. by rewrite <-!drop_drop, Hdrop. }
  rewrite (take_S_r l k x Hx), keep_from_snoc.
  unfold Spans.scan_step. rewrite Harr, Hlast.
  destruct (Spans.lastEnd (Spans.keep_from 0 (take k l)) <=? begin x) eqn:Hle; simpl.
  - rewrite length_insert. split_and!; [|lia| |done|].
    + rewrite (take_S_r _ _ x).
      * rewrite take_insert_ge by lia. by rewrite Htake.
      * apply list_lookup_insert_eq. lia.
    + by rewrite drop_insert_lt by lia.
    + unfold Spans.lastEnd. by rewrite last_snoc.
  - rewrite app_nil_r. split_and!; [done|lia|done|done|done].
Qed.

Lemma selectOutermost_keep_from l : Spans.selectOutermost l = Spans.keep_from 0 l.
Proof.
  unfold Spans.selectOutermost, Spans.scan_loop.
  destruct (scan_prefix l (length l)) as (Htake & _); [done|].
  simpl in Htake. by rewrite Htake, firstn_all.
Qed.

(** The second loop of [pprofMatchingSpans] replaces the list of every
    goroutine by its outermost spans and touches no other key. *)
Lemma selectAll_lookup (gToIntervals : gmap Z (list interval)) g :
  Spans.selectAll gToIntervals !! g = Spans.outermostSpans <$> gToIntervals !! g.
Proof. unfold Spans.selectAll. apply lookup_fmap. Qed.

(** In a strongly sorted list the relation holds between any two
    positions in order. *)
Lemma StronglySorted_lookup {A} (R : relation A) (l : list A) i j a b :
  StronglySorted R l → (i < j)%nat → l !! i = Some a → l !! j = Some b → R a b.
Proof.
  intros Hs. revert i j. induction Hs as [|x l Hs IH Hall]; intros i j Hij Hi Hj.
  { by rewrite lookup_nil in Hi. }
  destruct j as [|j]; [lia|]. simpl in Hj.
  destruct i as [|i]; simpl in Hi.
  - injection Hi as <-. rewrite Forall_forall in Hall.
    apply Hall. by eapply list_elem_of_lookup_2.
  - apply (IH i j); [lia|done|done].
Qed.

Lemma StronglySorted_sublist {A} (R : relation A) (k l : list A) :
  k `sublist_of` l → StronglySorted R l → StronglySorted R k.
Proof.
  induction 1 as [|x k l Hkl IH|x k l Hkl IH]; intros Hs; [done| |].
  - apply StronglySorted_inv in Hs as [Hs Hall]. constructor; [by apply IH|].
    rewrite Forall_forall in *. intros y Hy. apply Hall.
    by eapply elem_of_sublist.
  - apply StronglySorted_inv in Hs as [Hs _]. by apply IH.
Qed.

Lemma Spans_le_begin x y : Spans.le x y → begin x <= begin y.
Proof. rewrite Spans_le_spec. lia. Qed.

(** On a sorted slice every kept interval begins at or after
    [lastTimestamp], and at or after the end of every interval kept before
    it. *)
Lemma keep_from_separated a l :
  StronglySorted Spans.le l →
  Forall (λ y, a <= begin y) (Spans.keep_from a l)
  ∧ StronglySorted (λ x y, end_ x <= begin y) (Spans.keep_from a l).
Proof.
  intros Hs. revert a. induction Hs as [|i l Hs IH Hall]; intros a; simpl.
  { split; constructor. }
  destruct (Z.leb_spec a (begin i)) as [Hle|Hgt].
  - destruct (IH (end_ i)) as [Hfa Hss]. split.
    + constructor; [done|]. rewrite Forall_forall in *. intros y Hy.
      assert (y ∈ l) as Hyl by (eapply elem_of_sublist, keep_from_sublist; done).
      apply Hall, Spans_le_begin in Hyl. lia.
    + by constructor.
  - apply IH.
Qed.

Lemma keep_from_head a x l :
  a <= begin x → head (Spans.keep_from a (x :: l)) = Some x.
Proof. intros Hle. simpl. by destruct (Z.leb_spec a (begin x)); [|lia]. Qed.

Lemma keep_from_nonempty a l :
  l ≠ [] → Forall (λ i, a <= begin i) l → Spans.keep_from a l ≠ [].
Proof.
  destruct l as [|x l]; [done|]. intros _ Hall.
  apply Forall_cons in Hall as [Hx _]. simpl.
  by destruct (Z.leb_spec a (begin x)); [|lia].
Qed.

(** C1. For every per-goroutine list of raw intervals, what the
    outermost-selection step of [pprofMatchingSpans] keeps is pairwise
    non-overlapping (an interval kept later begins at or after the end of
    one kept earlier) and ascending by [begin]; it is a sub-sequence of the
    sorted slice, which is a permutation of the input, so every kept
    interval is an interval of the input, unmodified; the interval at any
    position of the sorted order is kept exactly when its [begin] is at or
    after [lastTimestamp], the end of the last interval kept before it (0
    when none was); and when no interval begins before 0 the first interval
    of the sorted order is kept, so that for every later position an interval
    has been kept before. *)
Theorem outermostSpans_correct (intervals : list interval) :
  let sorted := Spans.sort_Slice intervals in
  let kept := Spans.outermostSpans intervals in
  (∀ i j a b, (i < j)%nat → kept !! i = Some a → kept !! j = Some b →
     end_ a <= begin b ∧ ¬ overlap a b)
  ∧ (∀ i j a b, (i < j)%nat → kept !! i = Some a → kept !! j = Some b →
     begin a <= begin b)
  ∧ (kept `sublist_of` sorted ∧ sorted ≡ₚ intervals ∧ ∀ a, a ∈ kept → a ∈ intervals)
  ∧ (∀ pre x post, sorted = pre ++ x :: post →
       let before := Spans.selectOutermost pre in
       Spans.selectOutermost (pre ++ [x]) =
         before ++ (if decide (Spans.lastEnd before <= begin x) then [x] else [])
       ∧ kept = Spans.selectOutermost (pre ++ [x]) ++
                Spans.keep_from (Spans.lastEnd (Spans.selectOutermost (pre ++ [x]))) post)
  ∧ (Forall (λ i, 0 <= begin i) intervals →
       head kept = head sorted
       ∧ ∀ pre x post, sorted = pre ++ x :: post → pre ≠ [] →
           is_Some (last (Spans.selectOutermost pre))).
Proof.
  intros sorted kept.
  assert (Hkept : kept = Spans.keep_from 0 sorted)
    by apply selectOutermost_keep_from.
  pose proof (sort_Slice_sorted intervals) as Hsorted. fold sorted in Hsorted.
  pose proof (sort_Slice_perm intervals) as Hperm. fold sorted in Hperm.
  pose proof (keep_from_sublist 0 sorted) as Hsub. rewrite <-Hkept in Hsub.
  destruct (keep_from_separated 0 sorted Hsorted) as [_ Hsep].
  rewrite <-Hkept in Hsep.
  split_and!.
  - intros i j a b Hij Ha Hb.
    pose proof (StronglySorted_lookup _ _ _ _ _ _ Hsep Hij Ha Hb) as Hab.
    simpl in Hab. split; [done|].
    assert (begin a <= begin b).
    { apply Spans_le_begin.
      eapply (StronglySorted_lookup Spans.le kept i j); [|done..].
      by eapply StronglySorted_sublist. }
    unfold overlap. lia.
  - intros i j a b Hij Ha Hb. apply Spans_le_begin.
    eapply (StronglySorted_lookup Spans.le kept i j); [|done..].
    by eapply StronglySorted_sublist.
  - done.
  - done.
  - intros a Ha. rewrite <-Hperm. by eapply elem_of_sublist.
  - intros pre x post Hsplit before. subst before.
    rewrite Hkept, !selectOutermost_keep_from, keep_from_snoc. split.
    + f_equal. destruct (Z.leb_spec (Spans.lastEnd (Spans.keep_from 0 pre)) (begin x));
        case_decide; done || lia.
    + rewrite Hsplit, (cons_middle x pre post), app_assoc.
      rewrite (keep_from_app 0 (pre ++ [x]) post), keep_from_snoc. done.
  - intros Hnn.
    assert (Forall (λ i, 0 <= begin i) sorted) as Hnn' by by rewrite Hperm.
    split.
    + rewrite Hkept. destruct sorted as [|x rest]; [done|].
      apply Forall_cons in Hnn' as [Hx _]. by apply keep_from_head.
    + intros pre x post Hsplit Hpre. rewrite selectOutermost_keep_from.
      rewrite Hsplit in Hnn'. apply Forall_app in Hnn' as [Hnn' _].
      pose proof (keep_from_nonempty 0 pre Hpre Hnn') as Hne.
      destruct (last (Spans.keep_from 0 pre)) eqn:Hlast; [by eexists|].
      by apply last_None in Hlast.
Qed.

(** ** pprofOverlappingDuration *)

Lemma Zsum_nonneg l : Forall (λ z, 0 <= z) l → 0 <= Zsum l.
Proof. induction 1; simpl; lia. Qed.

Lemma Zsum_app l1 l2 : Zsum (l1 ++ l2) = Zsum l1 + Zsum l2.
Proof. induction l1; simpl; lia. Qed.

Lemma intersection_nonneg s e i : 0 <= intersection s e i.
Proof. unfold intersection. lia. Qed.

Lemma Zsum_intersection_nonneg s e l : 0 <= Zsum (intersection s e <$> l).
Proof.
  apply Zsum_nonneg, Forall_fmap, Forall_forall. intros i _.
  apply intersection_nonneg.
Qed.

(** The window cut in two around an interval [a]: what an interval
    disjoint from [a] shares with the window, it shares with the part
    before [a] or with the part after [a]. *)
Lemma intersection_split s e a b :
  s <= e → begin a <= end_ a → begin b <= end_ b → ¬ overlap a b →
  intersection s e b <=
    intersection s (Z.max s (Z.min e (begin a))) b
    + intersection (Z.max s (Z.min e (end_ a))) e b.
Proof. unfold intersection, overlap. lia. Qed.

Lemma intersection_clamp s e a :
  s <= e → begin a <= end_ a →
  intersection s e a <= Z.max s (Z.min e (end_ a)) - Z.max s (Z.min e (begin a)).
Proof. unfold intersection. lia. Qed.

(** Pairwise disjoint intervals share with a window no more than its
    length. *)
Lemma Zsum_intersection_bound l :
  Forall (λ i, begin i <= end_ i) l → pairwise_disjoint l →
  ∀ s e, s <= e → Zsum (intersection s e <$> l) <= e - s.
Proof.
  induction l as [|a l IH]; intros Hwf Hdisj s e Hse; csimpl; [lia|].
  apply Forall_cons in Hwf as [Ha Hwf]. destruct Hdisj as [Hal Hdisj].
  specialize (IH Hwf Hdisj).
  set (L := Z.max s (Z.min e (begin a))).
  set (R := Z.max s (Z.min e (end_ a))).
  assert (Zsum (intersection s e <$> l)
          <= Zsum (intersection s L <$> l) + Zsum (intersection R e <$> l)) as Hsplit.
  { clear IH. induction l as [|b l IHl]; csimpl; [lia|].
    apply Forall_cons in Hwf as [Hb Hwf]. apply Forall_cons in Hal as [Hab Hal].
    destruct Hdisj as [_ Hdisj]. specialize (IHl Hwf Hal Hdisj).
    pose proof (intersection_split s e a b Hse Ha Hb Hab). fold L R in H. lia. }
  pose proof (IH s L ltac:(unfold L; lia)).
  pose proof (IH R e ltac:(unfold R; lia)).
  pose proof (intersection_clamp s e a Hse Ha). fold L R in H1. lia.
Qed.

Section OverlappingDurationFacts.

Variable overlappingDuration : Z → Z → Z → Z → Z.

(** The strictly positive overlaps of the event with the intervals. *)
Let positive (ev : trace.Event.t) (link_ts : Z) (i : interval) : Z :=
  Z.max 0 (overlappingDuration (begin i) (end_ i) (trace.Event.Ts ev) link_ts).

(** The loop of [pprofOverlappingDuration] adds up, in [int64], the
    strictly positive overlaps. *)
Lemma overlapping_loop ev link_ts intervals acc :
  trace.Event.Link ev = Some link_ts → Int64.in_range acc →
  foldl (overlapping_step overlappingDuration ev) (Some acc) intervals
  = Some (Int64.wrap (acc + Zsum (positive ev link_ts <$> intervals))).
Proof.
  intros Hlink. revert acc. induction intervals as [|i l IH]; intros acc Hacc; csimpl.
  { by rewrite Z.add_0_r, Int64_wrap_in_range. }
  rewrite Hlink. simpl. unfold positive at 1.
  destruct (Z.ltb_spec 0 (overlappingDuration (begin i) (end_ i)
                            (trace.Event.Ts ev) link_ts)) as [Hpos|Hneg].
  - rewrite IH by apply Int64_wrap_range. unfold Int64.add.
    rewrite Int64_wrap_add_l. f_equal. f_equal. lia.
  - rewrite IH by done. f_equal. f_equal. lia.
Qed.

Lemma pprofOverlappingDuration_nil ev link_ts :
  trace.Event.Link ev = Some link_ts →
  pprofOverlappingDuration overlappingDuration None ev
  = Some (Int64.sub link_ts (trace.Event.Ts ev)).
Proof.
  intros Hlink. simpl. rewrite Hlink. simpl. unfold Nanosecond.
  rewrite Z.mul_1_r. unfold Int64.sub. by rewrite Int64_wrap_wrap.
Qed.

Lemma pprofOverlappingDuration_map m ev link_ts :
  trace.Event.Link ev = Some link_ts →
  pprofOverlappingDuration overlappingDuration (Some m) ev
  = Some (Int64.wrap (Zsum (positive ev link_ts <$>
                              default [] (m !! trace.Event.G ev)))).
Proof.
  intros Hlink. simpl. case_decide as Hlen.
  - apply length_zero_iff_nil in Hlen. by rewrite Hlen.
  - by rewrite (overlapping_loop ev link_ts).
Qed.

End OverlappingDurationFacts.

Lemma outermostSpans_witness :
  head (Spans.outermostSpans Sample.raw) = head (Spans.sort_Slice Sample.raw).
Proof.
  destruct (outermostSpans_correct Sample.raw) as (_ & _ & _ & _ & H).
  apply H. unfold Sample.raw. repeat constructor; simpl; lia.
Defined.

Lemma overlappingDuration_in_range s1 e1 s2 e2 :
  timestamp_ok s1 → timestamp_ok e1 → timestamp_ok s2 → timestamp_ok e2 →
  annotations.overlappingDuration s1 e1 s2 e2
  = intersection s2 e2 {| begin := s1; end_ := e1 |}.
Proof.
  unfold annotations.overlappingDuration, intersection. simpl. intros.
  rewrite Int64_sub_in_range; [done|unfold timestamp_ok in *; lia..].
Qed.

Lemma positive_overlaps_in_range ev link_ts intervals :
  timestamp_ok (trace.Event.Ts ev) → timestamp_ok link_ts →
  Forall (λ i, timestamp_ok (begin i) ∧ timestamp_ok (end_ i)) intervals →
  positive_overlaps annotations.overlappingDuration ev link_ts intervals
  = intersection (trace.Event.Ts ev) link_ts <$> intervals.
Proof.
  intros Hs He. unfold positive_overlaps. induction 1 as [|[b e] l [Hb Hee] _ IH]; csimpl; [done|].
  rewrite IH. f_equal. rewrite overlappingDuration_in_range by done.
  pose proof (intersection_nonneg (trace.Event.Ts ev) link_ts {| begin := b; end_ := e |}).
  lia.
Qed.

(** C2. For an event with a linked end event, [pprofOverlappingDuration]
    returns: with the nil map, [ev.Link.Ts - ev.Ts]; with a non-nil map in
    which the goroutine of the event is absent or has an empty list, 0; with
    a non-nil map in which the goroutine has intervals, the sum over them of
    [max(0, min(i.end, ev.Link.Ts) - max(i.begin, ev.Ts))]. The subtractions
    and the sum are those of [int64]; they are the subtractions and the sum
    of the integers whenever the timestamps are valid and the sum fits an
    [int64]. *)
Theorem pprofOverlappingDuration_spec
    (gToIntervals : intervalFilter) (ev : trace.Event.t) (link_ts : Z) :
  trace.Event.Link ev = Some link_ts →
  let result := pprofOverlappingDuration annotations.overlappingDuration gToIntervals ev in
  let s := trace.Event.Ts ev in
  let e := link_ts in
  (gToIntervals = None → result = Some (Int64.sub e s))
  ∧ (∀ m, gToIntervals = Some m →
       m !! trace.Event.G ev = None ∨ m !! trace.Event.G ev = Some [] →
       result = Some 0)
  ∧ (∀ m intervals, gToIntervals = Some m →
       m !! trace.Event.G ev = Some intervals →
       result = Some (Int64.wrap (Zsum (
         (λ i, Z.max 0 (Int64.sub (Z.min (end_ i) e) (Z.max (begin i) s)))
           <$> intervals))))
  ∧ (timestamp_ok s → timestamp_ok e →
       Int64.sub e s = e - s
       ∧ ∀ m intervals, gToIntervals = Some m →
           m !! trace.Event.G ev = Some intervals →
           Forall (λ i, timestamp_ok (begin i) ∧ timestamp_ok (end_ i)) intervals →
           Zsum (intersection s e <$> intervals) <= Int64.max_int →
           result = Some (Zsum (intersection s e <$> intervals))).
Proof.
  intros Hlink result s e. subst result s e. split_and!.
  - intros ->. by apply pprofOverlappingDuration_nil.
  - intros m -> Hm. rewrite (pprofOverlappingDuration_map _ _ _ link_ts Hlink).
    by destruct Hm as [-> | ->].
  - intros m intervals -> Hm.
    rewrite (pprofOverlappingDuration_map _ _ _ link_ts Hlink), Hm. simpl.
    f_equal. f_equal. f_equal. unfold annotations.overlappingDuration.
    apply list_fmap_ext. intros _ i _. lia.
  - intros Hs He. split; [by apply Int64_sub_in_range|].
    intros m intervals -> Hm Hok Hfit.
    rewrite (pprofOverlappingDuration_map _ _ _ link_ts Hlink), Hm. simpl.
    fold (positive_overlaps annotations.overlappingDuration ev link_ts intervals).
    rewrite positive_overlaps_in_range by done.
    rewrite Int64_wrap_in_range; [done|].
    pose proof (Zsum_intersection_nonneg (trace.Event.Ts ev) link_ts intervals).
    unfold Int64.in_range, Int64.min_int. lia.
Qed.

Lemma pprofOverlappingDuration_spec_witness :
  pprofOverlappingDuration annotations.overlappingDuration Sample.filter Sample.event
  = Some 30.
Proof.
  destruct (pprofOverlappingDuration_spec Sample.filter Sample.event 50 eq_refl)
    as (_ & _ & _ & H).
  destruct H as [_ H]; [unfold timestamp_ok, Int64.max_int; simpl; lia..|].
  apply (H _ [ {| begin := 0; end_ := 20 |}; {| begin := 30; end_ := 60 |} ] eq_refl).
  - reflexivity.
  - repeat (apply Forall_cons; split;
              [unfold timestamp_ok, Int64.max_int; simpl; lia|]).
    apply Forall_nil_2.
  - vm_compute. discriminate.
Defined.






(** ** The aggregators *)

Section AggregatorFacts.

Variable overlappingDuration : Z → Z → Z → Z → Z.

Lemma unusable_false ev :
  unusable ev = false ↔
  is_Some (trace.Event.Link ev) ∧ trace.Event.StkID ev ≠ 0 ∧ trace.Event.Stk ev ≠ [].
Proof.
  unfold unusable. rewrite !orb_false_iff, !bool_decide_eq_false, Z.eqb_neq.
  rewrite <-not_eq_None_Some, length_zero_iff_nil. tauto.
Qed.

(** Every loop body is: skip the event unless its kind is one of the
    profile kind and it is usable, else [accumulate]. *)
Lemma step_of_unfold k g prof ev :
  step_of overlappingDuration k g prof ev =
  if bool_decide (trace.Event.Type_ ev ∈ kind_events k) && negb (unusable ev)
  then accumulate overlappingDuration g prof ev
  else Some prof.
Proof.
  destruct k; simpl; unfold stepIO, stepBlock, stepSyscall, stepSched;
    destruct (trace.Event.Type_ ev) eqn:Hty; destruct (unusable ev); done.
Qed.

Lemma pprofOverlappingDuration_total g ev :
  is_Some (trace.Event.Link ev) →
  is_Some (pprofOverlappingDuration overlappingDuration g ev).
Proof.
  intros [link_ts Hlink]. destruct g as [m|].
  - rewrite (pprofOverlappingDuration_map _ _ _ link_ts Hlink). by eexists.
  - rewrite (pprofOverlappingDuration_nil _ _ link_ts Hlink). by eexists.
Qed.

(** No loop body panics. *)
Lemma step_of_total k g prof ev :
  step_of overlappingDuration k g prof ev
  = Some (after overlappingDuration k g prof ev).
Proof.
  unfold after. rewrite step_of_unfold.
  destruct (bool_decide _); simpl; [|done].
  destruct (unusable ev) eqn:Hu; simpl; [done|].
  apply unusable_false in Hu as (Hlink & _).
  destruct (pprofOverlappingDuration_total g ev Hlink) as [o Ho].
  unfold accumulate. rewrite Ho. simpl. by case_match.
Qed.

Lemma run_loop_total k g events :
  run_loop (step_of overlappingDuration k g) events
  = Some (foldl (after overlappingDuration k g) ∅ events).
Proof.
  unfold run_loop. generalize (∅ : gmap Z Record_.t).
  induction events as [|ev events IH]; intros prof; simpl; [done|].
  rewrite step_of_total. apply IH.
Qed.

Lemma computePprof_run_loop k g events :
  computePprof overlappingDuration k g events
  = run_loop (step_of overlappingDuration k g) events.
Proof. by destruct k. Qed.

(** What one event does to the map. *)
Lemma after_contributes k g prof ev o :
  contributes overlappingDuration k g ev o →
  after overlappingDuration k g prof ev
  = <[trace.Event.StkID ev := contribution prof ev o]> prof.
Proof.
  intros (Hty & Hlink & Hid & Hstk & Ho & Hpos).
  unfold after. rewrite step_of_unfold.
  rewrite bool_decide_eq_true_2 by done.
  rewrite (proj2 (unusable_false ev)) by done. simpl.
  unfold accumulate. rewrite Ho. simpl.
  by destruct (Z.ltb_spec 0 o); [|lia].
Qed.

Lemma after_skips k g prof ev :
  (∀ o, ¬ contributes overlappingDuration k g ev o) →
  after overlappingDuration k g prof ev = prof.
Proof.
  intros Hno. unfold after. rewrite step_of_unfold.
  destruct (bool_decide_reflect (trace.Event.Type_ ev ∈ kind_events k)) as [Hty|];
    simpl; [|done].
  destruct (unusable ev) eqn:Hu; simpl; [done|].
  apply unusable_false in Hu as (Hlink & Hid & Hstk).
  destruct (pprofOverlappingDuration_total g ev Hlink) as [o Ho].
  unfold accumulate. rewrite Ho. simpl.
  destruct (Z.ltb_spec 0 o); [|done].
  destruct (Hno o). by repeat split.
Qed.

End AggregatorFacts.

(** C3. For each of the four profile kinds, an event changes the map of
    records if and only if its kind is one of the kind's set ([kind_events]:
    network block for I/O; send, receive, select, sync, condition and GC
    assist block for Block; syscall for Syscall; unblock and create for
    Sched), it has a linked end event, a nonzero stack id, at least one
    frame, and a strictly positive overlap with the filter. A contributing
    event adds 1 to the count of the record of its stack id, adds its
    overlap to the time of that record, and sets its stack to the frames of
    the event; any other event leaves the map as it is. The map handed to
    [buildProfile] is the result of doing so for the events in order,
    starting from the empty map. *)
Theorem aggregation_step (overlappingDuration : Z → Z → Z → Z → Z)
    (k : ProfileKind) (gToIntervals : intervalFilter)
    (prof : gmap Z Record_.t) (ev : trace.Event.t) :
  (∀ o, contributes overlappingDuration k gToIntervals ev o →
     let rec := default Record_.zero (prof !! trace.Event.StkID ev) in
     step_of overlappingDuration k gToIntervals prof ev
     = Some (<[trace.Event.StkID ev :=
                {| Record_.stk := trace.Event.Stk ev;
                   Record_.n := Uint64.add (Record_.n rec) 1;
                   Record_.time := Int64.add (Record_.time rec) o |}]> prof))
  ∧ ((∀ o, ¬ contributes overlappingDuration k gToIntervals ev o) →
     step_of overlappingDuration k gToIntervals prof ev = Some prof)
  ∧ computePprof overlappingDuration k gToIntervals [] = Some ∅
  ∧ (∀ events,
       computePprof overlappingDuration k gToIntervals (events ++ [ev])
       = computePprof overlappingDuration k gToIntervals events
           ≫= λ prof, step_of overlappingDuration k gToIntervals prof ev).
Proof.
  split_and!.
  - intros o Hc rec. rewrite step_of_total. f_equal. by apply after_contributes.
  - intros Hno. rewrite step_of_total. f_equal. by apply after_skips.
  - by destruct k.
  - intros events. rewrite !computePprof_run_loop. unfold run_loop.
    by rewrite foldl_app.
Qed.

Lemma aggregation_step_witness :
  step_of annotations.overlappingDuration IO None ∅ Sample.event
  = Some {[ 7 := {| Record_.stk := [Sample.frame]; Record_.n := 1; Record_.time := 40 |} ]}.
Proof.
  destruct (aggregation_step annotations.overlappingDuration IO None ∅ Sample.event)
    as (H & _).
  apply (H 40). unfold contributes. split_and!.
  - simpl. set_solver.
  - by eexists.
  - simpl. lia.
  - simpl. discriminate.
  - reflexivity.
  - lia.
Defined.

(** ** Order independence of the aggregation *)

Lemma foldl_permutation_commute {A B} (f : B → A → B) (l l' : list A) :
  l ≡ₚ l' →
  (∀ x y b, x ∈ l → y ∈ l → f (f b x) y = f (f b y) x) →
  ∀ b, foldl f b l = foldl f b l'.
Proof.
  induction 1 as [|x l l' Hp IH|x y l|l1 l2 l3 Hp1 IH1 Hp2 IH2]; intros Hcomm b; simpl.
  - done.
  - apply IH. intros y z b' Hy Hz. apply Hcomm; by apply elem_of_cons; right.
  - f_equal. apply Hcomm; set_solver.
  - rewrite IH1 by done. apply IH2.
    intros x y b' Hx Hy. apply Hcomm; by rewrite Hp1.
Qed.

Section Permutation.

Variable overlappingDuration : Z → Z → Z → Z → Z.

Lemma Int64_add_swap a x y :
  Int64.add (Int64.add a x) y = Int64.add (Int64.add a y) x.
Proof. unfold Int64.add. rewrite !Int64_wrap_add_l. f_equal. lia. Qed.

(** Whether an event contributes, and with which overlap, does not
    depend on the map. *)
Lemma after_cases k g e :
  (∀ p, after overlappingDuration k g p e = p)
  ∨ ∃ o, ∀ p, after overlappingDuration k g p e
              = <[trace.Event.StkID e := contribution p e o]> p.
Proof.
  unfold after. setoid_rewrite step_of_unfold.
  destruct (bool_decide _ && negb _); [|by left].
  unfold accumulate.
  destruct (pprofOverlappingDuration overlappingDuration g e) as [o|];
    simpl; [|by left].
  destruct (0 <? o); [right; by exists o|by left].
Qed.

(** Two events commute when they have distinct stack ids or equal
    stacks. *)
Lemma after_comm k g prof e1 e2 :
  (trace.Event.StkID e1 = trace.Event.StkID e2 →
   trace.Event.Stk e1 = trace.Event.Stk e2) →
  after overlappingDuration k g (after overlappingDuration k g prof e1) e2
  = after overlappingDuration k g (after overlappingDuration k g prof e2) e1.
Proof.
  intros Hstk.
  destruct (after_cases k g e1) as [H1|[o1 H1]],
           (after_cases k g e2) as [H2|[o2 H2]];
    rewrite ?H1, ?H2; try done.
  destruct (decide (trace.Event.StkID e1 = trace.Event.StkID e2)) as [Heq|Hne].
  - unfold contribution. rewrite <-Heq, !lookup_insert_eq, !insert_insert_eq.
    simpl. rewrite (Hstk Heq), Int64_add_swap. done.
  - unfold contribution.
    rewrite lookup_insert_ne by done.
    rewrite (lookup_insert_ne _ (trace.Event.StkID e2)) by done.
    by apply insert_insert_ne.
Qed.

Lemma foldl_after_permutation k g events events' :
  events ≡ₚ events' → stacks_agree events →
  foldl (after overlappingDuration k g) ∅ events
  = foldl (after overlappingDuration k g) ∅ events'.
Proof.
  intros Hp Hagree. apply foldl_permutation_commute; [done|].
  intros e1 e2 prof He1 He2. apply after_comm. by apply Hagree.
Qed.

End Permutation.

(** C4. When any two events that share a stack id carry equal frame
    lists, the map of records each of the four aggregators builds from a
    permutation of the events is the map it builds from the events: the
    same keys with the same counts, times and stacks. *)
Theorem aggregation_permutation (overlappingDuration : Z → Z → Z → Z → Z)
    (gToIntervals : intervalFilter) (events events' : list trace.Event.t) :
  events ≡ₚ events' →
  stacks_agree events →
  computePprofIO overlappingDuration gToIntervals events'
    = computePprofIO overlappingDuration gToIntervals events
  ∧ computePprofBlock overlappingDuration gToIntervals events'
    = computePprofBlock overlappingDuration gToIntervals events
  ∧ computePprofSyscall overlappingDuration gToIntervals events'
    = computePprofSyscall overlappingDuration gToIntervals events
  ∧ computePprofSched overlappingDuration gToIntervals events'
    = computePprofSched overlappingDuration gToIntervals events
  ∧ ∀ k, is_Some (computePprof overlappingDuration k gToIntervals events).
Proof.
  intros Hp Hagree.
  assert (∀ k, computePprof overlappingDuration k gToIntervals events'
               = computePprof overlappingDuration k gToIntervals events) as H.
  { intros k. rewrite !computePprof_run_loop, !run_loop_total. f_equal.
    symmetry. by apply foldl_after_permutation. }
  split_and!; [apply (H IO)|apply (H Block)|apply (H Syscall)|apply (H Sched)|].
  intros k. rewrite computePprof_run_loop, run_loop_total. by eexists.
Qed.

(** ** buildProfile: the interning tables *)

Section Interning.

Import profile build interning.

Lemma first_at_app frames more frame :
  first_at frames frame → first_at (frames ++ more) frame.
Proof.
  intros (pre & post & -> & Hpre). exists pre, (post ++ more).
  by rewrite <-app_assoc.
Qed.

Lemma first_at_snoc frames frame :
  trace.Frame.PC frame ∉ trace.Frame.PC <$> frames →
  first_at (frames ++ [frame]) frame.
Proof. intros Hnew. by exists frames, []. Qed.



(** A frame at an address not met before: the function lookup. *)
Lemma internFunction_consistent st frames frame fn st' :
  consistent st frames →
  internFunction st frame = (fn, st') →
  locs st' = locs st
  ∧ Profile.Location (p st') = Profile.Location (p st)
  ∧ Profile.Sample (p st') = Profile.Sample (p st)
  ∧ funcs st' !! funcKey frame = Some fn
  ∧ (∀ key fn', funcs st !! key = Some fn' → funcs st' !! key = Some fn')
  ∧ (∀ key fn', funcs st' !! key = Some fn' ↔
       fn' ∈ Profile.Function (p st') ∧ fkey fn' = key)
  ∧ NoDup (fkey <$> Profile.Function (p st'))
  ∧ (∀ i fn', Profile.Function (p st') !! i = Some fn' →
       Function.ID fn' = Z.of_nat i + 1)
  ∧ (∀ fn', fn' ∈ Profile.Function (p st') →
       fn' ∈ Profile.Function (p st)
       ∨ (Function.Name fn' = trace.Frame.Fn frame
          ∧ Function.SystemName fn' = trace.Frame.Fn frame
          ∧ Function.Filename fn' = trace.Frame.File frame)).
Proof.
  intros [HA HB HC HD HE HF HG HH HI]. unfold internFunction.
  destruct (funcs st !! funcKey frame) as [fn0|] eqn:Hlook.
  - intros [= <- <-]. split_and!; try done. by left.
  - intros [= <- <-]. simpl.
    set (fn := {| Function.ID := _ |}).
    assert (fkey fn = funcKey frame) as Hkey by done.
    assert (funcKey frame ∉ fkey <$> Profile.Function (p st)) as Hfresh.
    { intros (fn' & Hk & Hin)%list_elem_of_fmap.
      assert (funcs st !! funcKey frame = Some fn') as Hsome
        by (apply HD; done).
      congruence. }
    split_and!; try done.
    + apply lookup_insert_eq.
    + intros key fn' Hsome. rewrite lookup_insert_ne; [done|congruence].
    + intros key fn'. rewrite lookup_insert, elem_of_app, list_elem_of_singleton.
      case_decide as Hk.
      * subst key. split.
        -- intros [= <-]. split; [by right|done].
        -- intros [[Hin | ->] Hfk]; [|done].
           exfalso. apply Hfresh. rewrite <-Hfk. by apply list_elem_of_fmap_2.
      * rewrite HD. split; [intros [? ?]; split; [by left|done]|].
        intros [[Hin | ->] Hfk]; [done|congruence].
    + rewrite fmap_app. apply NoDup_app. split_and!; [done| |apply NoDup_singleton].
      intros key Hin Hin'. apply list_elem_of_singleton in Hin'. subst key.
      by apply Hfresh.
    + intros i fn' Hi. apply lookup_app_Some in Hi as [Hi|[Hlen Hi]].
      * by apply HF.
      * apply list_lookup_singleton_Some in Hi as [Hi <-]. simpl. lia.
    + intros fn' [Hin| ->%list_elem_of_singleton]%elem_of_app; [by left|by right].
Qed.

(** The loop body keeps the tables consistent; the location it yields is
    the entry of the table at the address of the frame; the tables only
    grow and the samples are untouched. *)
Lemma internLocation_consistent st frames frame :
  consistent st frames →
  let '(loc, st') := internLocation st frame in
  consistent st' (frames ++ [frame])
  ∧ loc ∈ Profile.Location (p st')
  ∧ Location.Address loc = trace.Frame.PC frame
  ∧ Profile.Location (p st) `prefix_of` Profile.Location (p st')
  ∧ Profile.Function (p st) `prefix_of` Profile.Function (p st')
  ∧ Profile.Sample (p st') = Profile.Sample (p st).
Proof.
  intros Hc. pose proof Hc as [HA HB HC HD HE HF HG HH HI].
  unfold internLocation.
  destruct (locs st !! trace.Frame.PC frame) as [loc|] eqn:Hlook.
  - apply HA in Hlook as [Hin Haddr]. split_and!; try done.
    constructor; try done.
    + intros pc. rewrite HG, fmap_app, elem_of_app. csimpl.
      rewrite list_elem_of_singleton.
      split; [by left|]. intros [?| ->]; [done|].
      apply HG. rewrite <-Haddr. by apply list_elem_of_fmap_2.
    + intros loc' Hin'. destruct (HH loc' Hin') as (f & fn & Hf & ?).
      exists f, fn. split; [by apply first_at_app|done].
    + intros fn Hin'. destruct (HI fn Hin') as (f & Hf & ?).
      exists f. split; [by apply first_at_app|done].
  - destruct (internFunction st frame) as [fn st1] eqn:Hfn.
    destruct (internFunction_consistent st frames frame fn st1 Hc Hfn)
      as (Hlocs & Hls & Hss & Hfnkey & Hmono & HD' & HE' & HF' & HI').
    simpl. rewrite Hls, Hlocs.
    set (loc := {| Location.ID := _ |}).
    assert (trace.Frame.PC frame ∉ Location.Address <$> Profile.Location (p st))
      as Hfresh.
    { intros (loc' & Hk & Hin)%list_elem_of_fmap.
      assert (locs st !! trace.Frame.PC frame = Some loc') as Hsome
        by (apply HA; done).
      congruence. }
    assert (trace.Frame.PC frame ∉ trace.Frame.PC <$> frames) as Hnew
      by by rewrite <-HG.
    split_and!.
    + constructor; simpl.
      * intros pc loc'. rewrite lookup_insert, elem_of_app, list_elem_of_singleton.
        case_decide as Hk.
        -- subst pc. split.
           ++ intros [= <-]. split; [by right|done].
           ++ intros [[Hin | ->] Haddr]; [|done].
              exfalso. apply Hfresh. rewrite <-Haddr. by apply list_elem_of_fmap_2.
        -- rewrite HA. split; [intros [? ?]; split; [by left|done]|].
           intros [[Hin | ->] Haddr]; [done|]. by destruct Hk.
      * rewrite fmap_app. apply NoDup_app. split_and!; [done| |apply NoDup_singleton].
        intros pc Hin Hin'. apply list_elem_of_singleton in Hin'. subst pc.
        by apply Hfresh.
      * intros i loc' Hi. apply lookup_app_Some in Hi as [Hi|[Hlen Hi]].
        -- by apply HC.
        -- apply list_lookup_singleton_Some in Hi as [Hi <-]. simpl. lia.
      * done.
      * done.
      * done.
      * intros pc. rewrite !fmap_app, !elem_of_app, HG. done.
      * intros loc' [Hin| ->%list_elem_of_singleton]%elem_of_app.
        -- destruct (HH loc' Hin) as (f & fn' & Hf & Haddr & Hline & Hkey).
           exists f, fn'. split_and!; [by apply first_at_app|done|done|by apply Hmono].
        -- exists frame, fn. split_and!; [by apply first_at_snoc|done|done|done].
      * intros fn' Hin. destruct (HI' fn' Hin) as [Hold|Hnewfn].
        -- destruct (HI fn' Hold) as (f & Hf & ?).
           exists f. split; [by apply first_at_app|done].
        -- exists frame. split; [by apply first_at_snoc|done].
    + simpl. apply elem_of_app. right. by apply list_elem_of_singleton.
    + done.
    + simpl. by apply prefix_app_r.
    + simpl. unfold internFunction in Hfn.
      destruct (funcs st !! funcKey frame); injection Hfn as <- <-; simpl;
        [done|by apply prefix_app_r].
    + simpl. done.
Qed.


Lemma consistent_init : consistent init [].
Proof.
  constructor; simpl; try done.
  - intros pc loc. rewrite lookup_empty. split; [done|].
    intros [Hin _]. by apply elem_of_nil in Hin.
  - constructor.
  - intros key fn. rewrite lookup_empty. split; [done|].
    intros [Hin _]. by apply elem_of_nil in Hin.
  - constructor.
  - intros loc Hin. by apply elem_of_nil in Hin.
  - intros fn Hin. by apply elem_of_nil in Hin.
Qed.

Lemma consistent_with_Sample st frames samples :
  consistent st frames →
  consistent {| p := with_Sample (p st) samples;
                locs := locs st; funcs := funcs st |} frames.
Proof. intros []. by constructor. Qed.

(** Every state of [buildProfile] is consistent with the frames met. *)
Lemma reachable_consistent st frames : reachable st frames → consistent st frames.
Proof.
  induction 1 as [|st frames frame _ IH|st frames samples _ IH].
  - apply consistent_init.
  - pose proof (internLocation_consistent st frames frame IH) as H.
    destruct (internLocation st frame). by destruct H.
  - by apply consistent_with_Sample.
Qed.

(** The loop over the frames of one stack. *)
Lemma internStack_spec stk : ∀ st frames acc,
  reachable st frames →
  let '(sloc, st') := foldl frame_step (acc, st) stk in
  reachable st' (frames ++ stk)
  ∧ st' = intern_frames st stk
  ∧ Profile.Location (p st) `prefix_of` Profile.Location (p st')
  ∧ Profile.Sample (p st') = Profile.Sample (p st)
  ∧ ∃ new, sloc = acc ++ new
           ∧ Forall2 (λ frame loc, loc ∈ Profile.Location (p st')
                                   ∧ Location.Address loc = trace.Frame.PC frame)
                     stk new.
Proof.
  induction stk as [|frame stk IH]; intros st frames acc Hreach; simpl.
  { rewrite !app_nil_r. split_and!; try done. exists []. by rewrite app_nil_r. }
  unfold frame_step at 2. simpl.
  pose proof (internLocation_consistent st frames frame
                (reachable_consistent _ _ Hreach)) as Hstep.
  pose proof (reach_frame st frames frame Hreach) as Hreach'.
  destruct (internLocation st frame) as [loc st1] eqn:Hil. simpl in Hreach'.
  destruct Hstep as (_ & Hin & Haddr & Hpre & _ & Hsame).
  specialize (IH st1 (frames ++ [frame]) (acc ++ [loc]) Hreach').
  destruct (foldl frame_step (acc ++ [loc], st1) stk) as [sloc st'].
  destruct IH as (Hr & Hst & Hpre' & Hsame' & new & -> & Hall).
  split_and!.
  - by rewrite (cons_middle frame frames stk), app_assoc.
  - rewrite Hst. unfold intern_frames. cbn [foldl]. by rewrite ?Hil.
  - by etrans.
  - congruence.
  - exists (loc :: new). split; [by rewrite <-app_assoc|].
    constructor; [|done]. split; [|done]. by eapply elem_of_prefix.
Qed.

(** The loop over the records: the state is reachable with the frames of
    the records, and every record has its sample, in order. *)
Lemma run_spec recs :
  reachable (run recs) (frames_of recs)
  ∧ Forall2 (sample_of (Profile.Location (p (run recs))))
            recs (Profile.Sample (p (run recs))).
Proof.
  unfold run. induction recs as [|rec recs IH] using rev_ind.
  { split; [constructor|constructor]. }
  rewrite foldl_app. simpl. destruct IH as [Hreach Hsamples].
  set (st := foldl record_step init recs) in *.
  unfold record_step, internStack.
  pose proof (internStack_spec (Record_.stk rec) st (frames_of recs) [] Hreach) as H.
  destruct (foldl frame_step ([], st) (Record_.stk rec)) as [sloc st'].
  destruct H as (Hr & _ & Hpre & Hsame & new & -> & Hall). simpl. split.
  - unfold frames_of. rewrite fmap_app, concat_app. simpl. rewrite app_nil_r.
    by apply reach_sample.
  - rewrite Hsame. apply Forall2_app.
    + eapply Forall2_impl; [exact Hsamples|].
      intros rec' s [Hv Hl]. split; [done|].
      eapply Forall2_impl; [exact Hl|].
      intros f loc [Hin ?]. split; [|done]. by eapply elem_of_prefix.
    + constructor; [|constructor]. split; [done|]. done.
Qed.

(** The header is the same whatever the records. *)
Lemma run_header recs :
  Profile.PeriodType (p (run recs)) = Profile.PeriodType (p init)
  ∧ Profile.Period (p (run recs)) = Profile.Period (p init)
  ∧ Profile.SampleType (p (run recs)) = Profile.SampleType (p init).
Proof.
  unfold run. generalize init.
  assert (∀ st frame,
    Profile.PeriodType (p (internLocation st frame).2) = Profile.PeriodType (p st)
    ∧ Profile.Period (p (internLocation st frame).2) = Profile.Period (p st)
    ∧ Profile.SampleType (p (internLocation st frame).2)
      = Profile.SampleType (p st)) as Hframe.
  { intros st frame. unfold internLocation, internFunction.
    destruct (locs st !! _); [done|]. by destruct (funcs st !! _). }
  assert (∀ stk acc st,
    Profile.PeriodType (p (foldl frame_step (acc, st) stk).2) = Profile.PeriodType (p st)
    ∧ Profile.Period (p (foldl frame_step (acc, st) stk).2) = Profile.Period (p st)
    ∧ Profile.SampleType (p (foldl frame_step (acc, st) stk).2)
      = Profile.SampleType (p st)) as Hstack.
  { induction stk as [|frame stk IH]; intros acc st; simpl; [done|].
    unfold frame_step at 2 4 6. simpl.
    specialize (Hframe st frame).
    destruct (internLocation st frame) as [loc st1]. simpl in *.
    specialize (IH (acc ++ [loc]) st1). destruct IH as (-> & -> & ->). done. }
  induction recs as [|rec recs IH]; intros st; simpl; [done|].
  destruct (IH (record_step st rec)) as (-> & -> & ->).
  unfold record_step, internStack.
  specialize (Hstack (Record_.stk rec) [] st).
  destruct (foldl frame_step ([], st) (Record_.stk rec)) as [sloc st']. done.
Qed.

End Interning.

(** ** buildProfile: counting the entries of a table *)

Section Counting.

Import interning.

Context {A : Type}.






End Counting.

(** ** buildProfile: the profile *)

Section Profile.

Import profile build interning.



End Profile.







(** ** pprofMatchingGoroutines *)

Section MatchingGoroutinesFacts.

Variable lastTimestamp : Z.
Variable pc : Z.

Let step := matching_step lastTimestamp pc.

Lemma matching_step_skip res g :
  trace.GDesc.PC g ≠ pc → step res g = res.
Proof. intros Hne. unfold step, matching_step. by rewrite decide_True. Qed.

Lemma matching_step_match res g :
  trace.GDesc.PC g = pc →
  step res g = Some (<[trace.GDesc.ID g := [goroutineInterval lastTimestamp g]]>
                       (default ∅ res)).
Proof.
  intros Heq. unfold step, matching_step. rewrite decide_False by tauto.
  by destruct res.
Qed.

(** Without a matching goroutine the loop leaves [res] as it is. *)
Lemma matching_loop_none gs res :
  Forall (λ g, trace.GDesc.PC g ≠ pc) gs → foldl step res gs = res.
Proof.
  intros Hall. revert res. induction Hall as [|g gs Hg _ IH]; intros res; simpl; [done|].
  by rewrite matching_step_skip, IH.
Qed.

(** Once the map is made it stays non-nil and non-empty. *)
Lemma matching_loop_some gs m :
  m ≠ ∅ → ∃ m', foldl step (Some m) gs = Some m' ∧ m' ≠ ∅.
Proof.
  revert m. induction gs as [|g gs IH]; intros m Hm; simpl; [by exists m|].
  destruct (decide (trace.GDesc.PC g = pc)) as [Heq|Hne].
  - rewrite matching_step_match by done. apply IH. apply insert_non_empty.
  - rewrite matching_step_skip by done. by apply IH.
Qed.

Lemma matching_loop_exists gs res :
  Exists (λ g, trace.GDesc.PC g = pc) gs →
  ∃ m, foldl step res gs = Some m ∧ m ≠ ∅.
Proof.
  intros Hex. revert res. induction Hex as [g gs Hg|g gs _ IH]; intros res; simpl.
  - rewrite matching_step_match by done. apply matching_loop_some.
    apply insert_non_empty.
  - apply IH.
Qed.

(** Every entry of the result was in the map before the loop or is the
    interval of a matching goroutine. *)
Lemma matching_loop_lookup_inv gs res m gid l :
  foldl step res gs = Some m → m !! gid = Some l →
  default ∅ res !! gid = Some l
  ∨ ∃ g, g ∈ gs ∧ trace.GDesc.PC g = pc ∧ trace.GDesc.ID g = gid
         ∧ l = [goroutineInterval lastTimestamp g].
Proof.
  revert res. induction gs as [|g gs IH]; intros res; simpl.
  { intros -> Hl. by left. }
  intros Hfold Hl. destruct (IH _ Hfold Hl) as [Hold|(g' & Hin & ? & ? & ?)].
  - destruct (decide (trace.GDesc.PC g = pc)) as [Heq|Hne].
    + rewrite matching_step_match in Hold by done. simpl in Hold.
      apply lookup_insert_Some in Hold as [[<- <-]|[_ Hold]]; [|by left].
      right. exists g. split_and!; [apply elem_of_cons; by left|done..].
    + rewrite matching_step_skip in Hold by done. by left.
  - right. exists g'. split_and!; [apply elem_of_cons; by right|done..].
Qed.

(** A matching goroutine has its interval in the result, when no other
    goroutine has its id. *)
Lemma matching_loop_lookup gs res m g :
  NoDup (trace.GDesc.ID <$> gs) →
  foldl step res gs = Some m → g ∈ gs → trace.GDesc.PC g = pc →
  m !! trace.GDesc.ID g = Some [goroutineInterval lastTimestamp g].
Proof.
  revert res. induction gs as [|g0 gs IH]; intros res Hnd Hfold Hin Hpc.
  { by apply elem_of_nil in Hin. }
  rewrite fmap_cons in Hnd. apply NoDup_cons in Hnd as [Hfresh Hnd].
  simpl in Hfold. apply elem_of_cons in Hin as [->|Hin]; [|by eapply IH].
  rewrite matching_step_match in Hfold by done.
  destruct (m !! trace.GDesc.ID g0) as [l|] eqn:Hl.
  - destruct (matching_loop_lookup_inv _ _ _ _ _ Hfold Hl)
      as [Hold|(g' & Hin' & _ & Hid & _)].
    + simpl in Hold. by rewrite lookup_insert_eq in Hold.
    + destruct Hfresh. rewrite <-Hid. by apply list_elem_of_fmap_2.
  - exfalso. clear IH Hnd Hfresh Hpc.
    revert Hfold Hl. generalize (default ∅ res). intros m0.
    assert (∀ gs' m1, is_Some (m1 !! trace.GDesc.ID g0) →
              foldl step (Some m1) gs' = Some m → is_Some (m !! trace.GDesc.ID g0))
      as Hkeep.
    { induction gs' as [|g1 gs' IH']; intros m1 Hsome; simpl.
      - by intros [= <-].
      - destruct (decide (trace.GDesc.PC g1 = pc)) as [Heq|Hne].
        + rewrite matching_step_match by done. apply IH'. simpl.
          rewrite lookup_insert. case_decide; [by eexists|done].
        + rewrite matching_step_skip by done. by apply IH'. }
    intros Hfold Hl. eapply Hkeep in Hfold as [? ?]; [congruence|].
    rewrite lookup_insert_eq. by eexists.
Qed.

End MatchingGoroutinesFacts.

Example ParseUint_decimal : strconv.ParseUint "4198400" = Some 4198400.
Proof. reflexivity. Qed.

Example ParseUint_letter : strconv.ParseUint "12a" = None.
Proof. reflexivity. Qed.

Example ParseUint_sign : strconv.ParseUint "-1" = None.
Proof. reflexivity. Qed.

Example ParseUint_max : strconv.ParseUint "18446744073709551615" = Some (2 ^ 64 - 1).
Proof. reflexivity. Qed.

Example ParseUint_range : strconv.ParseUint "18446744073709551616" = None.
Proof. reflexivity. Qed.

Lemma ParseUint_empty : strconv.ParseUint "" = None.
Proof. reflexivity. Qed.

(** C6. [pprofMatchingGoroutines] returns the nil map without an error
    exactly when the identifier is empty. For a non-empty identifier that
    does not parse as a decimal unsigned 64-bit integer it returns an error.
    For an identifier that parses to [pc] it returns an error when no
    goroutine was created at [pc], and so never an empty map without an
    error; otherwise it returns a map that assigns to each goroutine created
    at [pc], and to no other key, the one interval from the start of the
    goroutine to its end, or to the last timestamp of the trace when its end
    is not in the trace. The goroutine index is keyed by goroutine id: no two
    goroutines of [gs] have the same id. *)
Theorem pprofMatchingGoroutines_spec
    (gs : list trace.GDesc.t) (lastTimestamp : Z) (id : string) :
  NoDup (trace.GDesc.ID <$> gs) →
  let result := pprofMatchingGoroutines gs lastTimestamp id in
  (result = inr None ↔ id = "")
  ∧ (id ≠ "" → strconv.ParseUint id = None →
     result = inl ("invalid goroutine type: " +:+ id))
  ∧ (∀ pc, strconv.ParseUint id = Some pc →
       (Forall (λ g, trace.GDesc.PC g ≠ pc) gs →
        result = inl ("failed to find matching goroutines for id: " +:+ id))
       ∧ (Exists (λ g, trace.GDesc.PC g = pc) gs →
          ∃ m, result = inr (Some m)
            ∧ (∀ g, g ∈ gs → trace.GDesc.PC g = pc →
                 m !! trace.GDesc.ID g = Some [goroutineInterval lastTimestamp g])
            ∧ (∀ gid l, m !! gid = Some l →
                 ∃ g, g ∈ gs ∧ trace.GDesc.PC g = pc ∧ trace.GDesc.ID g = gid
                      ∧ l = [goroutineInterval lastTimestamp g])))
  ∧ (∀ m, result = inr (Some m) → m ≠ ∅).
Proof.
  intros Hnd result. subst result. unfold pprofMatchingGoroutines.
  destruct (decide (id = "")) as [->|Hne].
  { by split_and!. }
  destruct (strconv.ParseUint id) as [pc|] eqn:Hparse.
  - assert (∀ m, foldl (matching_step lastTimestamp pc) None gs = Some m → m ≠ ∅)
      as Hnonempty.
    { intros m Hfold.
      destruct (decide (Exists (λ g, trace.GDesc.PC g = pc) gs)) as [Hex|Hno].
      - destruct (matching_loop_exists lastTimestamp pc gs None Hex) as (m' & Hm' & ?).
        congruence.
      - apply not_Exists_Forall in Hno; [|intros g; apply _].
        rewrite matching_loop_none in Hfold; [done|].
        eapply Forall_impl; [exact Hno|]. by intros g Hg. }
    split_and!.
    + split; [|done]. case_decide as Hlen; [done|]. intros [= Hres].
      destruct Hlen. by rewrite Hres.
    + done.
    + intros pc' [= <-]. split.
      * intros Hall. by rewrite matching_loop_none, decide_True by done.
      * intros Hex.
        destruct (matching_loop_exists lastTimestamp pc gs None Hex) as (m & Hm & Hmne).
        exists m. rewrite Hm. case_decide as Hlen.
        { destruct Hlen as [Hlen _]. simpl in Hlen.
          by apply map_size_empty_iff in Hlen. }
        split_and!; [done| |].
        -- intros g Hin Hpc. by eapply matching_loop_lookup.
        -- intros gid l Hl.
           destruct (matching_loop_lookup_inv _ _ _ _ _ _ _ Hm Hl) as [Hold|?]; [|done].
           simpl in Hold. by rewrite lookup_empty in Hold.
    + intros m. case_decide; [done|]. intros [= Hres]. by apply Hnonempty.
  - split_and!; try done.
Qed.

Lemma pprofMatchingGoroutines_spec_witness :
  ∃ m, pprofMatchingGoroutines Sample3.gs Sample3.lastTimestamp "4198400"
       = inr (Some m)
     ∧ m !! 1 = Some [ {| begin := 5; end_ := 1000 |} ].
Proof.
  assert (NoDup (trace.GDesc.ID <$> Sample3.gs)) as Hnd.
  { apply (bool_decide_unpack _). vm_compute. exact I. }
  destruct (pprofMatchingGoroutines_spec Sample3.gs Sample3.lastTimestamp
              "4198400" Hnd) as (_ & _ & H & _).
  destruct (H 4198400 eq_refl) as [_ H'].
  destruct H' as (m & Hm & Hin & _).
  { apply Exists_cons_hd. reflexivity. }
  exists m. split; [exact Hm|].
  apply (Hin Sample3.g1); [|reflexivity].
  apply elem_of_cons. by left.
Defined.

Lemma aggregation_permutation_witness :
  computePprofIO annotations.overlappingDuration Sample.filter
    [Sample2.other; Sample.event]
  = computePprofIO annotations.overlappingDuration Sample.filter
      [Sample.event; Sample2.other].
Proof.
  destruct (aggregation_permutation annotations.overlappingDuration Sample.filter
              [Sample.event; Sample2.other] [Sample2.other; Sample.event])
    as (H & _).
  - apply perm_swap.
  - intros e1 e2 H1 H2 Hid.
    apply list_elem_of_In in H1, H2. simpl in H1, H2.
    destruct H1 as [<-|[<-|[]]], H2 as [<-|[<-|[]]];
      first [reflexivity | by vm_compute in Hid].
  - exact H.
Defined.

(** ** End to end *)




(** * Further properties *)

(** ** The comparison of [sort.Slice] and the scan *)

(** X1. The [less] closure of [pprofMatchingSpans] is a strict total
    order on intervals: it is irreflexive and transitive, and of two
    distinct intervals one is [less] than the other. So [sort.Slice], which
    is not stable, has one possible result: two permutations of a slice in
    which no interval is [less] than one before it are equal. *)
Theorem less_total_order :
  (∀ x, Spans.less x x = false)
  ∧ (∀ x y z, Spans.less x y = true → Spans.less y z = true → Spans.less x z = true)
  ∧ (∀ x y, x ≠ y → Spans.less x y = true ∨ Spans.less y x = true)
  ∧ (∀ intervals s1 s2,
       s1 ≡ₚ intervals → s2 ≡ₚ intervals →
       Sorted Spans.le s1 → Sorted Spans.le s2 → s1 = s2).
Proof.
  assert (∀ x y, Spans.less x y = true ↔
                 begin x < begin y ∨ (begin x = begin y ∧ end_ x < end_ y)) as Hless.
  { intros x y. unfold Spans.less.
    destruct (Z.eqb_spec (begin x) (begin y)); rewrite Z.ltb_lt; lia. }
  split_and!.
  - intros x. apply not_true_iff_false. rewrite Hless. lia.
  - intros x y z. rewrite !Hless. lia.
  - intros [bx ex] [b_y ey] Hne. rewrite !Hless. simpl.
    destruct (decide (bx = b_y)) as [->|]; [|lia].
    destruct (decide (ex = ey)) as [->|]; [done|lia].
  - intros intervals s1 s2 H1 H2 Hs1 Hs2.
    by rewrite (sort_Slice_unique intervals s1), (sort_Slice_unique intervals s2).
Qed.

Lemma less_total_order_witness :
  [ {| begin := 0; end_ := 5 |}; {| begin := 0; end_ := 15 |} ]
  = Spans.sort_Slice [ {| begin := 0; end_ := 15 |}; {| begin := 0; end_ := 5 |} ].
Proof.
  destruct less_total_order as (_ & _ & _ & H).
  apply (H [ {| begin := 0; end_ := 15 |}; {| begin := 0; end_ := 5 |} ]).
  - apply perm_swap.
  - apply sort_Slice_perm.
  - repeat constructor.
  - apply Sorted_merge_sort; apply _.
Defined.

(** X2. The scan of [pprofMatchingSpans] writes the slice it ranges over,
    and never writes an element it has yet to read: after [k] iterations at
    most [k] intervals are kept ([n <= k]), the slice has its length, and
    the elements from index [k] on are those of the sorted slice. *)
Theorem scan_in_place (intervals : list interval) (k : nat) :
  (k ≤ length intervals)%nat →
  let st := foldl Spans.scan_step
                  {| Spans.arr := intervals; Spans.lastTimestamp := 0; Spans.n := 0 |}
                  (seq 0 k) in
  (Spans.n st ≤ k)%nat
  ∧ length (Spans.arr st) = length intervals
  ∧ (∀ i, (k ≤ i)%nat → Spans.arr st !! i = intervals !! i)
  ∧ take (Spans.n st) (Spans.arr st) = Spans.selectOutermost (take k intervals).
Proof.
  intros Hk st. destruct (scan_prefix intervals k Hk) as (Htake & Hn & Hdrop & Hlen & _).
  fold st in Htake, Hn, Hdrop, Hlen. split_and!; [done|done| |].
  - intros i Hi. replace i with (k + (i - k))%nat by lia.
    by rewrite <-!lookup_drop, Hdrop.
  - by rewrite selectOutermost_keep_from.
Qed.

Lemma scan_in_place_witness :
  take 1 (Spans.arr (foldl Spans.scan_step
            {| Spans.arr := Spans.sort_Slice Sample.raw;
               Spans.lastTimestamp := 0; Spans.n := 0 |} (seq 0 2)))
  = Spans.selectOutermost (take 2 (Spans.sort_Slice Sample.raw)).
Proof.
  destruct (scan_in_place (Spans.sort_Slice Sample.raw) 2) as (_ & _ & _ & H).
  - vm_compute. lia.
  - exact H.
Defined.

(** ** The outermost selection *)

Lemma keep_from_idemp a l :
  Spans.keep_from a (Spans.keep_from a l) = Spans.keep_from a l.
Proof.
  revert a. induction l as [|i l IH]; intros a; simpl; [done|].
  destruct (a <=? begin i) eqn:Hle; simpl; [|apply IH].
  by rewrite Hle, IH.
Qed.

Lemma outermostSpans_keep_from intervals :
  Spans.outermostSpans intervals = Spans.keep_from 0 (Spans.sort_Slice intervals).
Proof. apply selectOutermost_keep_from. Qed.

Lemma outermostSpans_sorted intervals :
  StronglySorted Spans.le (Spans.outermostSpans intervals).
Proof.
  rewrite outermostSpans_keep_from.
  eapply StronglySorted_sublist; [apply keep_from_sublist|apply sort_Slice_sorted].
Qed.

Lemma outermostSpans_Permutation l1 l2 :
  l1 ≡ₚ l2 → Spans.outermostSpans l1 = Spans.outermostSpans l2.
Proof.
  intros Hp. unfold Spans.outermostSpans. f_equal.
  apply sort_Slice_unique; [by rewrite sort_Slice_perm|].
  apply Sorted_merge_sort; apply _.
Qed.

(** X3. The outermost selection is idempotent: selecting again from what
    was kept keeps all of it. *)
Theorem outermostSpans_idemp (intervals : list interval) :
  Spans.outermostSpans (Spans.outermostSpans intervals)
  = Spans.outermostSpans intervals.
Proof.
  assert (Spans.sort_Slice (Spans.outermostSpans intervals)
          = Spans.outermostSpans intervals) as Hsort.
  { symmetry. apply sort_Slice_unique; [done|].
    apply StronglySorted_Sorted, outermostSpans_sorted. }
  rewrite (outermostSpans_keep_from (Spans.outermostSpans intervals)), Hsort.
  rewrite outermostSpans_keep_from. apply keep_from_idemp.
Qed.

Lemma keep_from_dropped a l :
  StronglySorted Spans.le l →
  ∀ x, x ∈ l →
    x ∈ Spans.keep_from a l
    ∨ begin x < a
    ∨ ∃ k, k ∈ Spans.keep_from a l ∧ Spans.le k x ∧ begin x < end_ k.
Proof.
  intros Hs. revert a. induction Hs as [|i l Hs IH Hall]; intros a x Hx.
  { by apply elem_of_nil in Hx. }
  simpl. destruct (Z.leb_spec a (begin i)) as [Hle|Hgt].
  - apply elem_of_cons in Hx as [->|Hx]; [left; apply elem_of_cons; by left|].
    destruct (IH (end_ i) x Hx) as [Hin|[Hlt|(k & Hk & Hkx & Hlt)]].
    + left. apply elem_of_cons. by right.
    + right. right. exists i. split_and!; [apply elem_of_cons; by left| |done].
      rewrite Forall_forall in Hall. by apply Hall.
    + right. right. exists k. split_and!; [apply elem_of_cons; by right|done..].
  - apply elem_of_cons in Hx as [->|Hx]; [right; left; lia|].
    by apply IH.
Qed.

(** X4. Nothing is dropped without cause: when no interval begins before
    0, every interval of the input is kept, or it begins before the end of a
    kept interval that is not after it in the sorted order. *)
Theorem outermostSpans_dropped (intervals : list interval) (x : interval) :
  Forall (λ i, 0 <= begin i) intervals →
  x ∈ intervals →
  x ∈ Spans.outermostSpans intervals
  ∨ ∃ k, k ∈ Spans.outermostSpans intervals
         ∧ (begin k < begin x ∨ (begin k = begin x ∧ end_ k <= end_ x))
         ∧ begin x < end_ k.
Proof.
  intros Hnn Hx. rewrite outermostSpans_keep_from.
  rewrite <-(sort_Slice_perm intervals) in Hx.
  destruct (keep_from_dropped 0 _ (sort_Slice_sorted intervals) x Hx)
    as [Hin|[Hlt|(k & Hk & Hkx & Hlt)]].
  - by left.
  - rewrite Forall_forall in Hnn. rewrite sort_Slice_perm in Hx.
    specialize (Hnn x Hx). simpl in Hnn. lia.
  - right. exists k. split_and!; [done| |done]. by apply Spans_le_spec.
Qed.

Lemma outermostSpans_dropped_witness :
  {| begin := 12; end_ := 13 |} ∈ Spans.outermostSpans Sample.raw
  ∨ ∃ k, k ∈ Spans.outermostSpans Sample.raw
         ∧ (begin k < 12 ∨ (begin k = 12 ∧ end_ k <= 13))
         ∧ 12 < end_ k.
Proof.
  apply (outermostSpans_dropped Sample.raw {| begin := 12; end_ := 13 |}).
  - unfold Sample.raw.
    repeat (apply Forall_cons; split; [simpl; lia|]). apply Forall_nil_2.
  - unfold Sample.raw. do 2 (apply elem_of_cons; right). apply elem_of_cons. by left.
Defined.

(** ** pprofMatchingSpans *)

Section MatchingSpansFacts.

Context {K span : Type}.
Variable span_G : span → Z.
Variable span_first : span → Z.
Variable span_last : span → Z.
Variable match_ : K → span → bool.

(** The inner loop appends to the list of a goroutine the intervals of
    its matching spans, in order, and makes no empty list. *)
Lemma collect_inner id g ss : ∀ m,
  let m' := foldl (collect_step span_G span_first span_last match_ id) m ss in
  default [] (m' !! g)
  = default [] (m !! g)
    ++ (span_interval span_first span_last
          <$> filter (λ s, match_ id s = true ∧ span_G s = g) ss)
  ∧ (m' !! g = None ↔
     m !! g = None
     ∧ span_interval span_first span_last
         <$> filter (λ s, match_ id s = true ∧ span_G s = g) ss = []).
Proof.
  induction ss as [|s ss IH]; intros m; simpl.
  { rewrite app_nil_r. split; [done|]. split; [by intros ?|by intros [? _]]. }
  destruct (IH (collect_step span_G span_first span_last match_ id m s)) as [IH1 IH2].
  rewrite IH1, IH2. clear IH IH1 IH2. unfold collect_step.
  rewrite filter_cons.
  destruct (match_ id s) eqn:Hm.
  - destruct (decide (span_G s = g)) as [<-|Hne].
    + rewrite decide_True by done. rewrite lookup_insert_eq. csimpl.
      rewrite <-app_assoc. split; [done|]. split; [by intros [? _]|].
      by intros [_ ?].
    + rewrite decide_False by tauto. by rewrite lookup_insert_ne.
  - rewrite decide_False; [done|]. intros [? _]. congruence.
Qed.

Lemma collect_outer g spans : ∀ m,
  let m' := foldl (λ gToIntervals entry,
                     foldl (collect_step span_G span_first span_last match_ entry.1)
                           gToIntervals entry.2) m spans in
  default [] (m' !! g)
  = default [] (m !! g)
    ++ (span_interval span_first span_last <$> matching_spans span_G match_ g spans)
  ∧ (m' !! g = None ↔ m !! g = None ∧ matching_spans span_G match_ g spans = []).
Proof.
  induction spans as [|[id ss] spans IH]; intros m; csimpl.
  { rewrite app_nil_r. split; [done|]. split; [by intros ?|by intros [? _]]. }
  destruct (IH (foldl (collect_step span_G span_first span_last match_ id) m ss))
    as [IH1 IH2].
  destruct (collect_inner id g ss m) as [H1 H2].
  rewrite IH1, IH2, H1, H2, fmap_app, <-app_assoc. split; [done|].
  split.
  - intros [[? Hnil%fmap_nil_inv] Hnil']. split; [done|]. by rewrite Hnil, Hnil'.
  - intros [? [Hnil Hnil']%app_eq_nil]. by rewrite Hnil.
Qed.

(** What the first loop collects for a goroutine: the intervals of its
    matching spans, in the order met; a goroutine without a matching span
    has no entry. *)
Lemma collect_lookup g spans :
  collect span_G span_first span_last match_ spans !! g
  = if decide (matching_spans span_G match_ g spans = []) then None
    else Some (span_interval span_first span_last
                 <$> matching_spans span_G match_ g spans).
Proof.
  destruct (collect_outer g spans ∅) as [H1 H2].
  rewrite lookup_empty in H1, H2. simpl in H1.
  unfold collect. case_decide as Hnil.
  - by apply H2.
  - destruct (foldl _ ∅ spans !! g) as [l|] eqn:Hl.
    + simpl in H1. by rewrite H1.
    + by destruct (proj1 H2 eq_refl) as [_ ?].
Qed.


Lemma separated_pairwise_disjoint l :
  StronglySorted (λ x y, end_ x <= begin y) l → pairwise_disjoint l.
Proof.
  induction 1 as [|a l Hs IH Hall]; simpl; [done|]. split; [|done].
  eapply Forall_impl; [exact Hall|]. intros b Hab. unfold overlap. simpl in Hab. lia.
Qed.

Lemma outermostSpans_pairwise_disjoint intervals :
  pairwise_disjoint (Spans.outermostSpans intervals).
Proof.
  rewrite outermostSpans_keep_from. apply separated_pairwise_disjoint.
  apply keep_from_separated, sort_Slice_sorted.
Qed.

Lemma outermostSpans_elem_of intervals x :
  x ∈ Spans.outermostSpans intervals → x ∈ intervals.
Proof.
  rewrite outermostSpans_keep_from. intros Hx.
  rewrite <-(sort_Slice_perm intervals).
  eapply elem_of_sublist; [exact Hx|apply keep_from_sublist].
Qed.

Lemma outermostSpans_nonempty intervals :
  intervals ≠ [] → Forall (λ i, 0 <= begin i) intervals →
  Spans.outermostSpans intervals ≠ [].
Proof.
  intros Hne Hnn. rewrite outermostSpans_keep_from.
  apply keep_from_nonempty.
  - intros Hnil. apply Hne. apply Permutation_nil_r.
    by rewrite <-(sort_Slice_perm intervals), Hnil.
  - by rewrite sort_Slice_perm.
Qed.

Lemma matching_spans_elem_of g spans s :
  s ∈ matching_spans span_G match_ g spans ↔
  ∃ id ss, (id, ss) ∈ spans ∧ s ∈ ss ∧ match_ id s = true ∧ span_G s = g.
Proof.
  unfold matching_spans. rewrite list_elem_of_bind. split.
  - intros ([id ss] & [[Hm Hg] Hs]%list_elem_of_filter & Hin). by exists id, ss.
  - intros (id & ss & Hin & Hs & Hm & Hg). exists (id, ss). split; [|done].
    by apply list_elem_of_filter.
Qed.

(** X5. [pprofMatchingSpans] returns the error of [analyzeAnnotations]
    also when the filter is nil; without an error it returns the nil map for
    a nil filter and a non-nil map for any other filter. In that map a
    goroutine without a matching span has no entry, and every other
    goroutine has the outermost selection of the intervals of its matching
    spans. *)
Theorem pprofMatchingSpans_cases :
  (∀ err filter,
     pprofMatchingSpans span_G span_first span_last (K:=K) (inl err) filter = inl err)
  ∧ (∀ spans,
       pprofMatchingSpans span_G span_first span_last (K:=K) (inr spans) None
       = inr None)
  ∧ (∀ spans,
       ∃ m, pprofMatchingSpans span_G span_first span_last (inr spans) (Some match_)
            = inr (Some m)
          ∧ ∀ g, m !! g =
                 if decide (matching_spans span_G match_ g spans = []) then None
                 else Some (Spans.outermostSpans
                              (span_interval span_first span_last
                                 <$> matching_spans span_G match_ g spans))).
Proof.
  split_and!; [done|done|]. intros spans. eexists. split; [done|].
  intros g. rewrite selectAll_lookup, collect_lookup. by case_decide.
Qed.

(** X6. In the map [pprofMatchingSpans] returns, the intervals of a
    goroutine are pairwise disjoint and each one is the interval of a
    matching span of that goroutine; when the spans have valid timestamps
    with first <= last, no list is empty and the map is a filter as
    [pprofOverlappingDuration] expects it ([filter_ok]). *)
Theorem pprofMatchingSpans_disjoint (spans : list (K * list span))
    (m : gmap Z (list interval)) :
  pprofMatchingSpans span_G span_first span_last (inr spans) (Some match_)
    = inr (Some m) →
  (∀ g l, m !! g = Some l →
     pairwise_disjoint l
     ∧ ∀ i, i ∈ l →
         ∃ id ss s, (id, ss) ∈ spans ∧ s ∈ ss ∧ match_ id s = true
                    ∧ span_G s = g ∧ i = span_interval span_first span_last s)
  ∧ ((∀ id ss s, (id, ss) ∈ spans → s ∈ ss →
        timestamp_ok (span_first s) ∧ timestamp_ok (span_last s)
        ∧ span_first s <= span_last s) →
     filter_ok (Some m) ∧ ∀ g l, m !! g = Some l → l ≠ []).
Proof.
  intros [= <-].
  assert (∀ g l, Spans.selectAll (collect span_G span_first span_last match_ spans) !! g
                 = Some l →
                 matching_spans span_G match_ g spans ≠ []
                 ∧ l = Spans.outermostSpans
                         (span_interval span_first span_last
                            <$> matching_spans span_G match_ g spans)) as Hshape.
  { intros g l. rewrite selectAll_lookup, collect_lookup.
    case_decide; [done|]. by intros [= <-]. }
  assert (∀ g l i, Spans.selectAll (collect span_G span_first span_last match_ spans) !! g
                   = Some l → i ∈ l →
            ∃ id ss s, (id, ss) ∈ spans ∧ s ∈ ss ∧ match_ id s = true
                       ∧ span_G s = g ∧ i = span_interval span_first span_last s)
    as Hfrom.
  { intros g l i Hl Hi. destruct (Hshape g l Hl) as [_ ->].
    apply outermostSpans_elem_of, list_elem_of_fmap in Hi as (s & -> & Hs).
    apply matching_spans_elem_of in Hs as (id & ss & ? & ? & ? & ?).
    by exists id, ss, s. }
  split.
  - intros g l Hl. split; [|by eauto].
    destruct (Hshape g l Hl) as [_ ->]. apply outermostSpans_pairwise_disjoint.
  - intros Hvalid. split.
    + intros m' g l [= <-] Hl. split.
      * apply Forall_forall. intros i Hi.
        destruct (Hfrom g l i Hl Hi) as (id & ss & s & Hin & Hs & _ & _ & ->).
        by apply (Hvalid id ss s).
      * destruct (Hshape g l Hl) as [_ ->]. apply outermostSpans_pairwise_disjoint.
    + intros g l Hl. destruct (Hshape g l Hl) as [Hne ->].
      apply outermostSpans_nonempty.
      * intros Hnil. by apply fmap_nil_inv in Hnil.
      * apply Forall_fmap, Forall_forall. intros s Hs. simpl.
        apply matching_spans_elem_of in Hs as (id & ss & Hin & Hs & _).
        destruct (Hvalid id ss s Hin Hs) as ([? _] & _). done.
Qed.

End MatchingSpansFacts.

(** X7. The order in which [range] visits [res.spans] does not change
    what [pprofMatchingSpans] returns. *)
Theorem pprofMatchingSpans_order {K span : Type}
    (span_G span_first span_last : span → Z)
    (spans spans' : list (K * list span))
    (filter : option (K → span → bool)) :
  spans ≡ₚ spans' →
  pprofMatchingSpans span_G span_first span_last (inr spans) filter
  = pprofMatchingSpans span_G span_first span_last (inr spans') filter.
Proof.
  intros Hp. destruct filter as [f|]; [|done]. simpl. do 2 f_equal.
  apply map_eq. intros g. rewrite !selectAll_lookup.
  assert (matching_spans span_G f g spans ≡ₚ matching_spans span_G f g spans')
    as Hm by (unfold matching_spans; by rewrite Hp).
  rewrite !collect_lookup. repeat case_decide; simpl.
  - done.
  - exfalso. rewrite H in Hm. by apply Permutation_nil_l in Hm.
  - exfalso. rewrite H0 in Hm. by apply Permutation_nil_r in Hm.
  - f_equal. apply outermostSpans_Permutation. by rewrite Hm.
Qed.


Lemma pprofMatchingSpans_disjoint_witness :
  filter_ok (Some (Spans.selectAll
    (collect Sample4.G Sample4.first Sample4.last Sample4.key1 Sample4.spans))).
Proof.
  destruct (pprofMatchingSpans_disjoint Sample4.G Sample4.first Sample4.last
              Sample4.key1 Sample4.spans _ eq_refl) as [_ H].
  apply H. intros id ss s Hin Hs.
  apply list_elem_of_In in Hin. simpl in Hin.
  destruct Hin as [[= <- <-]|[[= <- <-]|[]]];
    apply list_elem_of_In in Hs; simpl in Hs;
    repeat (destruct Hs as [<-|Hs];
            [unfold timestamp_ok, Int64.max_int, Sample4.first, Sample4.last;
             simpl; lia|]);
    destruct Hs.
Defined.

Lemma pprofMatchingSpans_order_witness :
  pprofMatchingSpans Sample4.G Sample4.first Sample4.last
    (inr Sample4.spans) (Some Sample4.key1)
  = pprofMatchingSpans Sample4.G Sample4.first Sample4.last
      (inr (reverse Sample4.spans)) (Some Sample4.key1).
Proof.
  apply (pprofMatchingSpans_order Sample4.G Sample4.first Sample4.last).
  apply perm_swap.
Defined.

(** ** pprofMatchingGoroutines and the overlap *)

Lemma matching_loop_order lastTimestamp pc (gs gs' : list trace.GDesc.t) :
  gs ≡ₚ gs' → NoDup (trace.GDesc.ID <$> gs) →
  foldl (matching_step lastTimestamp pc) None gs
  = foldl (matching_step lastTimestamp pc) None gs'.
Proof.
  intros Hp Hnd.
  assert (NoDup (trace.GDesc.ID <$> gs')) as Hnd' by by rewrite <-Hp.
  destruct (decide (Exists (λ g, trace.GDesc.PC g = pc) gs)) as [Hex|Hno].
  - destruct (matching_loop_exists lastTimestamp pc gs None Hex) as (m & Hm & _).
    assert (Exists (λ g, trace.GDesc.PC g = pc) gs') as Hex' by by rewrite <-Hp.
    destruct (matching_loop_exists lastTimestamp pc gs' None Hex') as (m' & Hm' & _).
    rewrite Hm, Hm'. f_equal.
    assert (∀ l1 l2 m1 m2,
              l1 ≡ₚ l2 → NoDup (trace.GDesc.ID <$> l2) →
              foldl (matching_step lastTimestamp pc) None l1 = Some m1 →
              foldl (matching_step lastTimestamp pc) None l2 = Some m2 →
              ∀ gid l, m1 !! gid = Some l → m2 !! gid = Some l) as Hsub.
    { intros l1 l2 m1 m2 Hp12 Hnd2 H1 H2 gid l Hl.
      destruct (matching_loop_lookup_inv _ _ _ _ _ _ _ H1 Hl)
        as [Hold|(g & Hin & Hpc & <- & ->)].
      - simpl in Hold. by rewrite lookup_empty in Hold.
      - apply (matching_loop_lookup lastTimestamp pc l2 None); [done|done| |done].
        by rewrite <-Hp12. }
    apply map_eq. intros gid.
    destruct (m !! gid) as [l|] eqn:Hl.
    + symmetry. by apply (Hsub gs gs' m m').
    + destruct (m' !! gid) as [l'|] eqn:Hl'; [|done].
      apply (Hsub gs' gs m' m) in Hl'; [congruence|done..].
  - apply not_Exists_Forall in Hno; [|intros g; apply _].
    assert (Forall (λ g, trace.GDesc.PC g ≠ pc) gs) as Hall
      by (eapply Forall_impl; [exact Hno|]; by intros g Hg).
    rewrite matching_loop_none by done.
    rewrite matching_loop_none; [done|]. by rewrite <-Hp.
Qed.

(** X8. The order in which [range] visits the goroutine index [gs] does
    not change what [pprofMatchingGoroutines] returns. *)
Theorem pprofMatchingGoroutines_order
    (gs gs' : list trace.GDesc.t) (lastTimestamp : Z) (id : string) :
  gs ≡ₚ gs' → NoDup (trace.GDesc.ID <$> gs) →
  pprofMatchingGoroutines gs lastTimestamp id
  = pprofMatchingGoroutines gs' lastTimestamp id.
Proof.
  intros Hp Hnd. unfold pprofMatchingGoroutines.
  case_decide; [done|]. destruct (strconv.ParseUint id) as [pc|]; [|done].
  by rewrite (matching_loop_order lastTimestamp pc gs gs').
Qed.

Lemma pprofMatchingGoroutines_order_witness :
  pprofMatchingGoroutines Sample3.gs Sample3.lastTimestamp "4198400"
  = pprofMatchingGoroutines (reverse Sample3.gs) Sample3.lastTimestamp "4198400".
Proof.
  apply pprofMatchingGoroutines_order.
  - apply Permutation_sym, reverse_Permutation.
  - apply (bool_decide_unpack _). vm_compute. exact I.
Defined.

Lemma intersection_in_range s e i :
  timestamp_ok s → timestamp_ok e → Int64.in_range (intersection s e i).
Proof.
  unfold timestamp_ok, Int64.in_range, Int64.min_int, Int64.max_int, intersection.
  lia.
Qed.

(** X9. Under the filter [pprofMatchingGoroutines] returns for a
    goroutine type, an event of a goroutine of that type counts for the part
    of it that lies between the start and the end of its goroutine, and an
    event of any other goroutine counts for 0 (timestamps being valid). *)
Theorem goroutine_filter_overlap
    (gs : list trace.GDesc.t) (lastTimestamp : Z) (id : string) (pc : Z)
    (m : gmap Z (list interval)) (ev : trace.Event.t) (link_ts : Z) :
  NoDup (trace.GDesc.ID <$> gs) →
  strconv.ParseUint id = Some pc →
  pprofMatchingGoroutines gs lastTimestamp id = inr (Some m) →
  trace.Event.Link ev = Some link_ts →
  timestamp_ok (trace.Event.Ts ev) → timestamp_ok link_ts →
  (∀ g, g ∈ gs → trace.GDesc.ID g = trace.Event.G ev → trace.GDesc.PC g = pc →
     timestamp_ok (begin (goroutineInterval lastTimestamp g)) →
     timestamp_ok (end_ (goroutineInterval lastTimestamp g)) →
     pprofOverlappingDuration annotations.overlappingDuration (Some m) ev
     = Some (intersection (trace.Event.Ts ev) link_ts
               (goroutineInterval lastTimestamp g)))
  ∧ ((∀ g, g ∈ gs → trace.GDesc.ID g = trace.Event.G ev → trace.GDesc.PC g ≠ pc) →
     pprofOverlappingDuration annotations.overlappingDuration (Some m) ev = Some 0).
Proof.
  intros Hnd Hparse Hres Hlink Hs He.
  unfold pprofMatchingGoroutines in Hres. rewrite Hparse in Hres.
  case_decide; [done|]. case_decide; [done|]. injection Hres as Hfold.
  rewrite (pprofOverlappingDuration_map _ _ _ link_ts Hlink).
  split.
  - intros g Hin Hid Hpc Hb Hend.
    rewrite <-Hid, (matching_loop_lookup _ _ _ _ _ _ Hnd Hfold Hin Hpc).
    change (default [] (Some [goroutineInterval lastTimestamp g]))
      with [goroutineInterval lastTimestamp g].
    rewrite list_fmap_singleton. cbn [Zsum foldr].
    rewrite overlappingDuration_in_range by done.
    destruct (goroutineInterval lastTimestamp g) as [b e] eqn:Hgi. cbn [begin end_].
    pose proof (intersection_nonneg (trace.Event.Ts ev) link_ts
                  {| begin := b; end_ := e |}).
    rewrite Z.max_r, Z.add_0_r by done. f_equal.
    by apply Int64_wrap_in_range, intersection_in_range.
  - intros Hnone. destruct (m !! trace.Event.G ev) as [l|] eqn:Hl; [|done].
    destruct (matching_loop_lookup_inv _ _ _ _ _ _ _ Hfold Hl)
      as [Hold|(g & Hin & Hpc & Hid & _)].
    + simpl in Hold. by rewrite lookup_empty in Hold.
    + by destruct (Hnone g Hin Hid).
Qed.

Lemma goroutine_filter_overlap_witness :
  ∃ m, pprofMatchingGoroutines Sample3.gs Sample3.lastTimestamp "4198400"
       = inr (Some m)
     ∧ pprofOverlappingDuration annotations.overlappingDuration (Some m) Sample.event
       = Some 40.
Proof.
  assert (NoDup (trace.GDesc.ID <$> Sample3.gs)) as Hnd
    by (apply (bool_decide_unpack _); vm_compute; exact I).
  eexists. split; [vm_compute; reflexivity|].
  destruct (goroutine_filter_overlap Sample3.gs Sample3.lastTimestamp "4198400"
              4198400 _ Sample.event 50 Hnd eq_refl eq_refl eq_refl) as [H _];
    [unfold timestamp_ok, Int64.max_int; simpl; lia..|].
  apply (H Sample3.g1);
    [apply elem_of_cons; by left|reflexivity|reflexivity
    |unfold timestamp_ok, Int64.max_int, Sample3.lastTimestamp; simpl; lia..].
Defined.

(** ** pprofOverlappingDuration: edge behaviour *)

(** X10. [pprofOverlappingDuration] dereferences [ev.Link] only where it
    needs the end of the event: it panics exactly when [ev.Link] is nil and
    either the map is nil or the goroutine of the event has a non-empty
    list. With a nil [Link] and a goroutine that is absent or has an empty
    list it returns 0. The four loop bodies skip an event with a nil [Link]
    before the call. *)
Theorem pprofOverlappingDuration_panics
    (overlappingDuration : Z → Z → Z → Z → Z)
    (gToIntervals : intervalFilter) (ev : trace.Event.t) :
  (pprofOverlappingDuration overlappingDuration gToIntervals ev = None ↔
   trace.Event.Link ev = None
   ∧ (gToIntervals = None
      ∨ ∃ m l, gToIntervals = Some m ∧ m !! trace.Event.G ev = Some l ∧ l ≠ []))
  ∧ (∀ m, gToIntervals = Some m →
       default [] (m !! trace.Event.G ev) = [] →
       pprofOverlappingDuration overlappingDuration gToIntervals ev = Some 0)
  ∧ (∀ k prof, trace.Event.Link ev = None →
       step_of overlappingDuration k gToIntervals prof ev = Some prof).
Proof.
  split_and!.
  - destruct (trace.Event.Link ev) as [link_ts|] eqn:Hlink.
    + destruct (pprofOverlappingDuration_total overlappingDuration gToIntervals ev)
        as [d Hd]; [by rewrite Hlink|].
      rewrite Hd. split; [done|]. by intros [? _].
    + destruct gToIntervals as [m|]; simpl; rewrite ?Hlink; simpl.
      2:{ split; [|done]. intros _. split; [done|by left]. }
      destruct (m !! trace.Event.G ev) as [[|i l]|] eqn:Hm; simpl.
      * split; [done|]. intros [_ [?|(m' & l & [= <-] & Hl & Hne)]]; [done|].
        rewrite Hm in Hl. by injection Hl as <-.
      * rewrite Hlink. simpl. split.
        -- intros _. split; [done|]. right. by exists m, (i :: l).
        -- intros _. clear Hm. induction l as [|j l IH]; [done|]. simpl. done.
      * split; [done|]. intros [_ [?|(m' & l & [= <-] & Hl & Hne)]]; [done|].
        by rewrite Hm in Hl.
  - intros m -> Hnil. simpl. by rewrite Hnil.
  - intros k prof Hlink. rewrite step_of_unfold.
    unfold unusable. rewrite Hlink.
    rewrite (bool_decide_eq_true_2 (None = None)) by done.
    simpl. by rewrite andb_false_r.
Qed.

Lemma pprofOverlappingDuration_panics_witness :
  pprofOverlappingDuration annotations.overlappingDuration
    (Some ∅)
    {| trace.Event.G := 1; trace.Event.Type_ := trace.EvGoBlockNet;
       trace.Event.Ts := 10; trace.Event.Link := None;
       trace.Event.StkID := 7; trace.Event.Stk := [Sample.frame] |}
  = Some 0.
Proof.
  refine (proj1 (proj2 (pprofOverlappingDuration_panics _ _ _)) ∅ eq_refl _).
  reflexivity.
Defined.

Lemma Zsum_elem_of_le l x :
  Forall (λ z, 0 <= z) l → x ∈ l → x <= Zsum l.
Proof.
  induction 1 as [|y l Hy Hall IH]; intros Hx; [by apply elem_of_nil in Hx|].
  pose proof (Zsum_nonneg l Hall). simpl.
  apply elem_of_cons in Hx as [->|Hx]; [lia|]. specialize (IH Hx). lia.
Qed.

Lemma Zsum_zero l : Forall (λ z, z = 0) l → Zsum l = 0.
Proof. induction 1 as [|y l -> _ IH]; simpl; lia. Qed.

(** X11. Under a filter with pairwise disjoint lists (timestamps being
    valid), an event that lies inside one interval of its goroutine counts
    with its whole duration; and under any filter an event that meets none
    of the intervals of its goroutine counts for 0 and is left out by each
    of the four loop bodies. *)
Theorem pprofOverlappingDuration_inside_outside
    (m : gmap Z (list interval)) (ev : trace.Event.t) (link_ts : Z)
    (intervals : list interval) :
  trace.Event.Link ev = Some link_ts →
  timestamp_ok (trace.Event.Ts ev) → timestamp_ok link_ts →
  trace.Event.Ts ev <= link_ts →
  m !! trace.Event.G ev = Some intervals →
  Forall (λ i, timestamp_ok (begin i) ∧ timestamp_ok (end_ i)) intervals →
  (filter_ok (Some m) →
   (∃ i, i ∈ intervals ∧ begin i <= trace.Event.Ts ev ∧ link_ts <= end_ i) →
   pprofOverlappingDuration annotations.overlappingDuration (Some m) ev
   = Some (link_ts - trace.Event.Ts ev))
  ∧ (Forall (λ i, end_ i <= trace.Event.Ts ev ∨ link_ts <= begin i) intervals →
     pprofOverlappingDuration annotations.overlappingDuration (Some m) ev = Some 0
     ∧ ∀ k prof, step_of annotations.overlappingDuration k (Some m) prof ev
                 = Some prof).
Proof.
  intros Hlink Hs He Hse Hm Hvalid.
  assert (pprofOverlappingDuration annotations.overlappingDuration (Some m) ev
          = Some (Int64.wrap (Zsum (intersection (trace.Event.Ts ev) link_ts
                                      <$> intervals)))) as Hpod.
  { rewrite (pprofOverlappingDuration_map _ _ _ link_ts Hlink), Hm. simpl.
    fold (positive_overlaps annotations.overlappingDuration ev link_ts intervals).
    by rewrite positive_overlaps_in_range. }
  split.
  - intros Hok (i & Hi & Hb & Hend).
    destruct (Hok m _ intervals eq_refl Hm) as [Hwf Hdisj].
    pose proof (Zsum_intersection_bound intervals
                  (Forall_impl _ _ _ Hwf (λ i H, proj2 (proj2 H))) Hdisj
                  (trace.Event.Ts ev) link_ts Hse) as Hup.
    assert (intersection (trace.Event.Ts ev) link_ts i
            <= Zsum (intersection (trace.Event.Ts ev) link_ts <$> intervals)) as Hlow.
    { apply Zsum_elem_of_le; [|by apply list_elem_of_fmap_2].
      apply Forall_fmap, Forall_forall. intros j _. apply intersection_nonneg. }
    assert (intersection (trace.Event.Ts ev) link_ts i = link_ts - trace.Event.Ts ev)
      as Hfull by (unfold intersection; lia).
    rewrite Hpod. f_equal.
    rewrite Int64_wrap_in_range; [lia|].
    unfold Int64.in_range, Int64.min_int, timestamp_ok in *. lia.
  - intros Hout.
    assert (pprofOverlappingDuration annotations.overlappingDuration (Some m) ev
            = Some 0) as Hzero.
    { rewrite Hpod, Zsum_zero; [done|].
      apply Forall_fmap, Forall_forall. intros i Hi.
      rewrite Forall_forall in Hout, Hvalid.
      specialize (Hout i Hi). destruct (Hvalid i Hi) as [Hb Hend].
      simpl. unfold intersection, timestamp_ok in *. lia. }
    split; [done|]. intros k prof. rewrite step_of_unfold.
    destruct (_ && _); [|done]. unfold accumulate. by rewrite Hzero.
Qed.

Lemma pprofOverlappingDuration_inside_outside_witness :
  pprofOverlappingDuration annotations.overlappingDuration
    (Some {[ 1 := [ {| begin := 0; end_ := 60 |} ] ]}) Sample.event
  = Some (50 - 10).
Proof.
  destruct (pprofOverlappingDuration_inside_outside
              {[ 1 := [ {| begin := 0; end_ := 60 |} ] ]} Sample.event 50
              [ {| begin := 0; end_ := 60 |} ] eq_refl) as [H _].
  - unfold timestamp_ok, Int64.max_int; simpl; lia.
  - unfold timestamp_ok, Int64.max_int; simpl; lia.
  - simpl; lia.
  - reflexivity.
  - apply Forall_cons; split;
      [unfold timestamp_ok, Int64.max_int; simpl; lia|apply Forall_nil_2].
  - apply H.
    + intros m g l [= <-] Hl. apply lookup_singleton_Some in Hl as [_ <-]. split.
      * apply Forall_cons; split;
          [unfold timestamp_ok, Int64.max_int; simpl; lia|apply Forall_nil_2].
      * simpl. split; [apply Forall_nil_2|done].
    + exists {| begin := 0; end_ := 60 |}. split; [apply elem_of_cons; by left|].
      simpl. lia.
Defined.

(** ** The aggregators: the map as a function of the events *)

Section AggregatorSummary.

Variable overlappingDuration : Z → Z → Z → Z → Z.

Lemma gain_nonneg k g ev : 0 <= gain overlappingDuration k g ev.
Proof. unfold gain. case_match; lia. Qed.

(** An event has a positive gain exactly when it contributes, and its
    gain is then its overlap. *)
Lemma gain_contributes k g ev o :
  contributes overlappingDuration k g ev o ↔
  gain overlappingDuration k g ev = o ∧ 0 < o.
Proof.
  unfold contributes, gain. split.
  - intros (Hty & Hlink & Hid & Hstk & Ho & Hpos).
    rewrite bool_decide_eq_true_2 by done.
    rewrite (proj2 (unusable_false ev)) by done. rewrite Ho. simpl. lia.
  - intros [Hg Hpos].
    destruct (bool_decide_reflect (trace.Event.Type_ ev ∈ kind_events k)) as [Hty|];
      simpl in Hg; [|lia].
    destruct (unusable ev) eqn:Hu; simpl in Hg; [lia|].
    apply unusable_false in Hu as (Hlink & Hid & Hstk).
    destruct (pprofOverlappingDuration_total overlappingDuration g ev Hlink)
      as [o' Ho'].
    rewrite Ho' in Hg |- *. simpl in Hg. split_and!; [done..| |done].
    f_equal. lia.
Qed.

Lemma after_gain k g prof ev :
  after overlappingDuration k g prof ev
  = if 0 <? gain overlappingDuration k g ev
    then <[trace.Event.StkID ev :=
             contribution prof ev (gain overlappingDuration k g ev)]> prof
    else prof.
Proof.
  destruct (Z.ltb_spec 0 (gain overlappingDuration k g ev)) as [Hpos|Hle].
  - apply after_contributes. by apply gain_contributes.
  - apply after_skips. intros o [Hg Hpos]%gain_contributes. lia.
Qed.

(** The map after the loop, key by key. *)
Lemma foldl_after_lookup k g events id :
  foldl (after overlappingDuration k g) ∅ events !! id
  = summary overlappingDuration k g id events.
Proof.
  induction events as [|ev events IH] using rev_ind; [done|].
  rewrite foldl_snoc, after_gain. unfold summary, contributing in *.
  rewrite filter_app, filter_cons, filter_nil.
  set (evs := filter _ events) in *.
  destruct (Z.ltb_spec 0 (gain overlappingDuration k g ev)) as [Hpos|Hle].
  - destruct (decide (trace.Event.StkID ev = id)) as [Hid|Hne].
    + rewrite decide_True by done. rewrite Hid, lookup_insert_eq, last_snoc. simpl.
      f_equal. unfold contribution. rewrite Hid, IH. f_equal.
      * rewrite length_app, Nat2Z.inj_add. simpl.
        destruct (last evs) eqn:Hlast; simpl.
        -- unfold Uint64.add. by rewrite Uint64_wrap_add_l.
        -- apply last_None in Hlast. by rewrite Hlast.
      * rewrite fmap_app, Zsum_app. csimpl. rewrite Z.add_0_r.
        destruct (last evs) eqn:Hlast; simpl.
        -- unfold Int64.add. by rewrite Int64_wrap_add_l.
        -- apply last_None in Hlast. by rewrite Hlast.
    + rewrite decide_False by tauto. rewrite app_nil_r, lookup_insert_ne by done.
      apply IH.
  - rewrite decide_False by lia. rewrite app_nil_r. apply IH.
Qed.

End AggregatorSummary.

(** X12. The map each of the four aggregators hands to [buildProfile]
    holds, for a stack id, the stack of the last contributing event with
    that id, the number of contributing events with that id and the sum of
    their overlaps (as [uint64] and [int64]); a stack id without a
    contributing event has no record. *)
Theorem aggregation_summary (overlappingDuration : Z → Z → Z → Z → Z)
    (k : ProfileKind) (gToIntervals : intervalFilter)
    (events : list trace.Event.t) :
  ∃ prof, computePprof overlappingDuration k gToIntervals events = Some prof
    ∧ (∀ id, prof !! id = summary overlappingDuration k gToIntervals id events)
    ∧ (∀ ev o, contributes overlappingDuration k gToIntervals ev o ↔
               gain overlappingDuration k gToIntervals ev = o ∧ 0 < o).
Proof.
  eexists. split_and!.
  - rewrite computePprof_run_loop. apply run_loop_total.
  - intros id. apply foldl_after_lookup.
  - intros ev o. apply gain_contributes.
Qed.

(** X13. A record of the map of an aggregator never has the stack id 0 or
    an empty stack: its key is the nonzero stack id of an event of the
    input whose kind is one of the profile and whose frames are the stack of
    the record. *)
Theorem aggregation_records (overlappingDuration : Z → Z → Z → Z → Z)
    (k : ProfileKind) (gToIntervals : intervalFilter)
    (events : list trace.Event.t) (prof : gmap Z Record_.t)
    (id : Z) (rec : Record_.t) :
  computePprof overlappingDuration k gToIntervals events = Some prof →
  prof !! id = Some rec →
  id ≠ 0 ∧ Record_.stk rec ≠ []
  ∧ ∃ ev, ev ∈ events
      ∧ trace.Event.StkID ev = id
      ∧ trace.Event.Type_ ev ∈ kind_events k
      ∧ is_Some (trace.Event.Link ev)
      ∧ Record_.stk rec = trace.Event.Stk ev.
Proof.
  rewrite computePprof_run_loop, run_loop_total. intros [= <-].
  rewrite foldl_after_lookup. unfold summary.
  destruct (last _) as [ev|] eqn:Hlast; [|done]. intros [= <-]. simpl.
  apply last_Some_elem_of, list_elem_of_filter in Hlast as [[Hid Hpos] Hin].
  assert (contributes overlappingDuration k gToIntervals ev
            (gain overlappingDuration k gToIntervals ev))
    as (Hty & Hlink & Hne & Hstk & _) by by apply gain_contributes.
  split_and!; [congruence|done|]. by exists ev.
Qed.

Lemma aggregation_records_witness :
  (7 : Z) ≠ 0 ∧ [Sample.frame] ≠ []
  ∧ ∃ ev, ev ∈ [Sample.event]
      ∧ trace.Event.StkID ev = 7
      ∧ trace.Event.Type_ ev ∈ kind_events IO
      ∧ is_Some (trace.Event.Link ev)
      ∧ [Sample.frame] = trace.Event.Stk ev.
Proof.
  apply (aggregation_records annotations.overlappingDuration IO None [Sample.event]
           {[ 7 := {| Record_.stk := [Sample.frame]; Record_.n := 1;
                      Record_.time := 40 |} ]} 7
           {| Record_.stk := [Sample.frame]; Record_.n := 1; Record_.time := 40 |}).
  - reflexivity.
  - reflexivity.
Defined.



(** ** buildProfile: the profile as a whole *)

Lemma NoDup_ids {A} (f : A → Z) (l : list A) :
  (∀ i x, l !! i = Some x → f x = Z.of_nat i + 1) → NoDup (f <$> l).
Proof.
  intros Hid. apply NoDup_alt. intros i j z Hi Hj.
  rewrite list_lookup_fmap in Hi, Hj.
  destruct (l !! i) as [x|] eqn:Hx; [|done].
  destruct (l !! j) as [y|] eqn:Hy; [|done].
  simpl in Hi, Hj. apply Hid in Hx, Hy. simplify_eq. lia.
Qed.


Lemma reachable_sizes st frames :
  interning.reachable st frames →
  (length (profile.Profile.Function (build.p st))
   ≤ length (profile.Profile.Location (build.p st)))%nat.
Proof.
  induction 1 as [|st frames frame _ IH|st frames samples _ IH]; simpl; [lia| |done].
  unfold build.internLocation, build.internFunction.
  destruct (build.locs st !! _); [done|].
  destruct (build.funcs st !! _); simpl; rewrite !length_app; simpl; lia.
Qed.


(** X15. The profile [buildProfile] builds is well formed: the Function
    of every Line of every Location is an entry of the Function table, the
    locations of every sample are entries of the Location table, the ids of
    either table are positive and pairwise distinct, and every sample has
    one value per sample type. *)
Theorem buildProfile_wellformed (recs : list Record_.t) :
  let P := build.buildProfileIn recs in
  (∀ loc line, loc ∈ profile.Profile.Location P →
     line ∈ profile.Location.Line loc →
     profile.Line.Function line ∈ profile.Profile.Function P)
  ∧ (∀ s loc, s ∈ profile.Profile.Sample P →
       loc ∈ profile.Sample.Location s → loc ∈ profile.Profile.Location P)
  ∧ NoDup (profile.Function.ID <$> profile.Profile.Function P)
  ∧ NoDup (profile.Location.ID <$> profile.Profile.Location P)
  ∧ (∀ fn, fn ∈ profile.Profile.Function P → 0 < profile.Function.ID fn)
  ∧ (∀ loc, loc ∈ profile.Profile.Location P → 0 < profile.Location.ID loc)
  ∧ (∀ s, s ∈ profile.Profile.Sample P →
       length (profile.Sample.Value s) = length (profile.Profile.SampleType P)).
Proof.
  intros P. subst P. unfold build.buildProfileIn.
  destruct (run_spec recs) as [Hreach Hsamples].
  pose proof (reachable_consistent _ _ Hreach) as [HA HB HC HD HE HF HG HH HI].
  destruct (run_header recs) as (_ & _ & Hst).
  split_and!.
  - intros loc line Hloc Hline.
    destruct (HH loc Hloc) as (f & fn & _ & _ & Hl & Hkey).
    rewrite Hl in Hline. apply list_elem_of_singleton in Hline as ->. simpl.
    by apply HD in Hkey as [? _].
  - intros s loc (i & Hi)%list_elem_of_lookup (j & Hj)%list_elem_of_lookup.
    destruct (Forall2_lookup_r _ _ _ _ _ Hsamples Hi) as (rec & _ & _ & Hl).
    by destruct (Forall2_lookup_r _ _ _ _ _ Hl Hj) as (f & _ & Hin & _).
  - by apply NoDup_ids.
  - by apply NoDup_ids.
  - intros fn (i & Hi)%list_elem_of_lookup. rewrite (HF i fn Hi). lia.
  - intros loc (i & Hi)%list_elem_of_lookup. rewrite (HC i loc Hi). lia.
  - intros s (i & Hi)%list_elem_of_lookup.
    destruct (Forall2_lookup_r _ _ _ _ _ Hsamples Hi) as (rec & _ & Hv & _).
    by rewrite Hv, Hst.
Qed.

(** X16. The profile has one sample per record; its Location table has
    one entry per distinct address of the frames of the records, and its
    Function table is no longer than its Location table. *)
Theorem buildProfile_sizes (recs : list Record_.t) :
  let P := build.buildProfileIn recs in
  length (profile.Profile.Sample P) = length recs
  ∧ length (profile.Profile.Location P)
    = length (remove_dups (trace.Frame.PC <$> interning.frames_of recs))
  ∧ (length (profile.Profile.Function P)
     ≤ length (profile.Profile.Location P))%nat.
Proof.
  intros P. subst P. unfold build.buildProfileIn.
  destruct (run_spec recs) as [Hreach Hsamples].
  pose proof (reachable_consistent _ _ Hreach) as [HA HB HC HD HE HF HG HH HI].
  split_and!.
  - symmetry. by eapply Forall2_length.
  - rewrite <-(length_fmap profile.Location.Address).
    apply Permutation_length, NoDup_Permutation; [done|apply NoDup_remove_dups|].
    intros pc. by rewrite HG, elem_of_remove_dups.
  - by eapply reachable_sizes.
Qed.



(** X18. A record whose frames are all at addresses met before adds its
    sample and nothing else: both tables and both maps stay as they are, and
    the locations of the sample are entries of the Location table at the
    addresses of the frames. *)
Theorem record_step_known (st : build.state) (frames : list trace.Frame.t)
    (rec : Record_.t) :
  interning.reachable st frames →
  (∀ frame, frame ∈ Record_.stk rec →
     trace.Frame.PC frame ∈ trace.Frame.PC <$> frames) →
  ∃ s, build.record_step st rec
       = {| build.p := build.with_Sample (build.p st)
                         (profile.Profile.Sample (build.p st) ++ [s]);
            build.locs := build.locs st;
            build.funcs := build.funcs st |}
     ∧ interning.sample_of (profile.Profile.Location (build.p st)) rec s.
Proof.
  intros Hreach Hknown.
  pose proof (reachable_consistent _ _ Hreach) as [HA _ _ _ _ _ HG _ _].
  assert (∀ stk acc,
            (∀ frame, frame ∈ stk →
               trace.Frame.PC frame ∈ trace.Frame.PC <$> frames) →
            ∃ new, foldl build.frame_step (acc, st) stk = (acc ++ new, st)
              ∧ Forall2 (λ frame loc,
                   loc ∈ profile.Profile.Location (build.p st)
                   ∧ profile.Location.Address loc = trace.Frame.PC frame)
                 stk new) as Hstack.
  { induction stk as [|frame stk IH]; intros acc Hin; simpl.
    { exists []. by rewrite app_nil_r. }
    assert (trace.Frame.PC frame
              ∈ profile.Location.Address <$> profile.Profile.Location (build.p st))
      as (loc & Haddr & Hloc)%list_elem_of_fmap
      by (apply HG, Hin, elem_of_cons; by left).
    assert (build.internLocation st frame = (loc, st)) as Hil.
    { unfold build.internLocation.
      by rewrite (proj2 (HA (trace.Frame.PC frame) loc)). }
    unfold build.frame_step at 2. cbn [fst snd]. rewrite Hil.
    destruct (IH (acc ++ [loc])) as (new & Hfold & Hall).
    { intros f Hf. apply Hin, elem_of_cons. by right. }
    exists (loc :: new). rewrite Hfold, <-app_assoc. split; [done|].
    by constructor. }
  destruct (Hstack (Record_.stk rec) [] Hknown) as (new & Hfold & Hall).
  unfold build.record_step, build.internStack. rewrite Hfold. simpl.
  eexists. split; [done|]. by split.
Qed.

Lemma record_step_known_witness :
  ∃ s, build.record_step (build.run [Sample2.rec1]) Sample2.rec2
       = {| build.p := build.with_Sample (build.p (build.run [Sample2.rec1]))
                         (profile.Profile.Sample (build.p (build.run [Sample2.rec1]))
                          ++ [s]);
            build.locs := build.locs (build.run [Sample2.rec1]);
            build.funcs := build.funcs (build.run [Sample2.rec1]) |}
     ∧ interning.sample_of
         (profile.Profile.Location (build.p (build.run [Sample2.rec1])))
         Sample2.rec2 s.
Proof.
  apply (record_step_known _ (interning.frames_of [Sample2.rec1])).
  - apply run_spec.
  - intros frame Hin. apply list_elem_of_singleton in Hin as ->.
    simpl. apply elem_of_cons. by left.
Defined.

(** ** pprofByGoroutine and pprofBySpan *)

Lemma computePprof_empty_filter (overlappingDuration : Z → Z → Z → Z → Z)
    (k : ProfileKind) (events : list trace.Event.t) :
  computePprof overlappingDuration k (Some ∅) events = Some ∅.
Proof.
  rewrite computePprof_run_loop, run_loop_total. f_equal.
  induction events as [|ev events IH] using rev_ind; [done|].
  rewrite foldl_snoc, IH, after_gain.
  assert (gain overlappingDuration k (Some ∅) ev = 0) as ->; [|done].
  unfold gain. case_match; [|done]. simpl. by rewrite lookup_empty.
Qed.

Lemma pprofMatchingGoroutines_nonempty gs lastTimestamp id m :
  pprofMatchingGoroutines gs lastTimestamp id = inr (Some m) → m ≠ ∅.
Proof.
  unfold pprofMatchingGoroutines. case_decide; [done|].
  destruct (strconv.ParseUint id) as [pc|]; [|done].
  case_decide as Hlen; [done|]. intros [= Hfold] ->.
  apply Hlen. by rewrite Hfold.
Qed.

(** X19. [pprofByGoroutine] returns the error of [parseEvents], else the
    error of [pprofMatchingGoroutines], and runs [compute] only when
    neither failed: then with the nil map exactly when the identifier is
    empty, and never with an empty map. *)
Theorem pprofByGoroutine_cases {R : Type}
    (compute : intervalFilter → list trace.Event.t → string + R)
    (gs : list trace.GDesc.t) (lastTimestamp : Z) (id : string)
    (events : list trace.Event.t) (err : option string) :
  let result := pprofByGoroutine compute gs lastTimestamp id (events, err) in
  (∀ e, err = Some e → result = inl e)
  ∧ (err = None →
     (∃ e, pprofMatchingGoroutines gs lastTimestamp id = inl e ∧ result = inl e)
     ∨ (∃ gToIntervals,
          pprofMatchingGoroutines gs lastTimestamp id = inr gToIntervals
          ∧ result = compute gToIntervals events
          ∧ (gToIntervals = None ↔ id = "")
          ∧ ∀ m, gToIntervals = Some m → m ≠ ∅)).
Proof.
  intros result. subst result. unfold pprofByGoroutine. simpl. split.
  - by intros e ->.
  - intros ->.
    destruct (pprofMatchingGoroutines gs lastTimestamp id) as [e|g] eqn:Hres.
    + left. by exists e.
    + right. exists g. split_and!; [done|done| |].
      * unfold pprofMatchingGoroutines in Hres.
        case_decide as Hid; [by injection Hres as <-|].
        destruct (strconv.ParseUint id); [|done].
        case_decide as Hlen; [done|]. injection Hres as <-.
        split; [|done]. intros Hnil. destruct Hlen. by rewrite Hnil.
      * intros m ->. by eapply pprofMatchingGoroutines_nonempty.
Qed.

Lemma pprofByGoroutine_cases_witness :
  pprofByGoroutine (λ g events, inr (computePprof annotations.overlappingDuration IO g events))
    Sample3.gs Sample3.lastTimestamp "" ([Sample.event], Some "parse error")
  = inl "parse error".
Proof.
  refine (proj1 (pprofByGoroutine_cases _ Sample3.gs Sample3.lastTimestamp ""
                   [Sample.event] (Some "parse error")) _ eq_refl).
Defined.

(** X20. A span filter that matches no span is no error, unlike a
    goroutine type without a goroutine: [pprofMatchingSpans] returns the
    empty non-nil map, [pprofBySpan] runs [compute] with it on the events
    [parseEvents] returned, whether or not [parseEvents] failed, and under
    the empty map each of the four aggregators builds the empty map of
    records. *)
Theorem span_filter_no_match {R K span : Type}
    (compute : intervalFilter → list trace.Event.t → string + R)
    (span_G span_first span_last : span → Z)
    (match_ : K → span → bool) (spans : list (K * list span))
    (events : list trace.Event.t) (err : option string) :
  (∀ id ss s, (id, ss) ∈ spans → s ∈ ss → match_ id s = false) →
  pprofMatchingSpans span_G span_first span_last (inr spans) (Some match_)
    = inr (Some ∅)
  ∧ pprofBySpan compute span_G span_first span_last
      (inr (Some match_)) (inr spans) (events, err)
    = compute (Some ∅) events
  ∧ ∀ overlappingDuration k,
      computePprof overlappingDuration k (Some ∅) events = Some ∅.
Proof.
  intros Hno.
  assert (pprofMatchingSpans span_G span_first span_last (inr spans) (Some match_)
          = inr (Some ∅)) as Hres.
  { simpl. do 2 f_equal. apply map_eq. intros g.
    rewrite selectAll_lookup, collect_lookup, lookup_empty.
    rewrite decide_True; [done|].
    destruct (matching_spans span_G match_ g spans) as [|s l] eqn:Hm; [done|].
    assert (s ∈ matching_spans span_G match_ g spans) as Hs
      by (rewrite Hm; apply elem_of_cons; by left).
    apply matching_spans_elem_of in Hs as (id & ss & Hin & Hs & Htrue & _).
    rewrite (Hno id ss s Hin Hs) in Htrue. done. }
  split_and!; [done| |].
  - unfold pprofBySpan. by rewrite Hres.
  - intros overlappingDuration k. apply computePprof_empty_filter.
Qed.

Lemma span_filter_no_match_witness :
  pprofBySpan
    (λ g events, inr (computePprof annotations.overlappingDuration IO g events))
    Sample4.G Sample4.first Sample4.last
    (inr (Some Sample4.nothing)) (inr Sample4.spans)
    ([Sample.event], Some "parse error")
  = inr (Some ∅).
Proof.
  destruct (span_filter_no_match
              (λ g events, inr (computePprof annotations.overlappingDuration IO g events))
              Sample4.G Sample4.first Sample4.last Sample4.nothing Sample4.spans
              [Sample.event] (Some "parse error")) as (_ & H & H').
  - done.
  - etrans; [exact H|]. exact (f_equal inr (H' annotations.overlappingDuration IO)).
Defined.

Lemma aggregation_summary_witness :
  gain annotations.overlappingDuration IO None Sample.event = 40 ∧ 0 < 40.
Proof.
  destruct (aggregation_summary annotations.overlappingDuration IO None [Sample.event])
    as (prof & _ & _ & H).
  apply (H Sample.event 40).
  split_and!; [simpl; apply elem_of_cons; by left|by eexists|done|done
              |reflexivity|lia].
Defined.

Lemma buildProfile_wellformed_witness :
  {| profile.Function.ID := 1;
     profile.Function.Name := "main.f";
     profile.Function.SystemName := "main.f";
     profile.Function.Filename := "a.go" |}
  ∈ profile.Profile.Function (build.buildProfileIn [Sample2.rec]).
Proof.
  destruct (buildProfile_wellformed [Sample2.rec]) as (H & _).
  apply (H {| profile.Location.ID := 1;
              profile.Location.Address := 4198400;
              profile.Location.Line :=
                [ {| profile.Line.Function :=
                       {| profile.Function.ID := 1;
                          profile.Function.Name := "main.f";
                          profile.Function.SystemName := "main.f";
                          profile.Function.Filename := "a.go" |};
                     profile.Line.Line := 10 |} ] |}
           {| profile.Line.Function :=
                {| profile.Function.ID := 1;
                   profile.Function.Name := "main.f";
                   profile.Function.SystemName := "main.f";
                   profile.Function.Filename := "a.go" |};
              profile.Line.Line := 10 |}).
  - apply (bool_decide_unpack _). vm_compute. exact I.
  - apply elem_of_cons. by left.
Defined.
